(** * react-invenio-deposit: error aggregation and draft lifecycle

    A shallow embedding of
    - [src/lib/components/FormFeedback.js] (the labelled error messages and
      the feedback message that is rendered from the store), and
    - [src/lib/state/actions/deposit.js] (the thunks that save, publish,
      submit, preview and delete a draft and reserve or discard a PID),
    followed by the properties of the specification stated over it. *)

From stdpp Require Import base strings list gmap pretty.
From Stdlib Require Import Ascii ZArith Lia.

Set Warnings "-register-all,-clear-no-such-hyp".

(** ** JavaScript values

    The error documents, the payloads and the form values are JSON-shaped
    data.  Numbers are kept as integers; an object is the list of its own
    enumerable properties in enumeration order. *)

Inductive value : Type :=
| VUndefined
| VNull
| VBool (b : bool)
| VNum (n : Z)
| VStr (s : string)
| VArr (items : list value)
| VObj (props : list (string * value)).

(** ToBoolean. *)
Definition truthy (v : value) : bool :=
  match v with
  | VUndefined | VNull => false
  | VBool b => b
  | VNum n => negb (n =? 0)%Z
  | VStr s => negb (String.eqb s "")
  | VArr _ | VObj _ => true
  end.

(** [a || b]. *)
Definition js_or (a b : value) : value := if truthy a then a else b.

(** A computation that may end in a TypeError. *)
Inductive completion (A : Type) : Type :=
| Normal (a : A)
| TypeError.
Arguments Normal {A} a.
Arguments TypeError {A}.

Global Instance completion_ret : MRet completion := λ A a, Normal a.
Global Instance completion_bind : MBind completion := λ A B k c,
  match c with
  | Normal a => k a
  | TypeError => TypeError
  end.

Global Instance completion_fmap : FMap completion := λ A B f c,
  match c with
  | Normal a => Normal (f a)
  | TypeError => TypeError
  end.

(** *** Plain objects

    Own properties are enumerated with the array-index keys first, in
    ascending numeric order, and then the other string keys in the order in
    which they were created. *)

Definition digit_of (a : ascii) : option N :=
  let n := N_of_ascii a in
  if ((48 <=? n) && (n <=? 57))%N then Some (n - 48)%N else None.

Fixpoint parse_digits (acc : N) (s : string) : option N :=
  match s with
  | EmptyString => Some acc
  | String a s' =>
      match digit_of a with
      | Some d => parse_digits (acc * 10 + d)%N s'
      | None => None
      end
  end.

(** A key is an array index when it is the canonical decimal form of an
    integer below 2^32 - 1. *)
Definition array_index (k : string) : option N :=
  match k with
  | EmptyString => None
  | _ =>
      match parse_digits 0 k with
      | Some n =>
          if String.eqb (pretty n) k && (n <? 4294967295)%N then Some n else None
      | None => None
      end
  end.

Section objects.
Context {V : Type}.

(** [o[k]] for an own property. *)
Fixpoint obj_get (k : string) (o : list (string * V)) : option V :=
  match o with
  | [] => None
  | (k', v) :: o' => if String.eqb k k' then Some v else obj_get k o'
  end.

Fixpoint obj_update (k : string) (v : V) (o : list (string * V)) : list (string * V) :=
  match o with
  | [] => []
  | (k', v') :: o' =>
      if String.eqb k k' then (k', v) :: o' else (k', v') :: obj_update k v o'
  end.

Fixpoint obj_insert_index (n : N) (k : string) (v : V) (o : list (string * V))
  : list (string * V) :=
  match o with
  | [] => [(k, v)]
  | (k', v') :: o' =>
      match array_index k' with
      | Some n' =>
          if (n' <? n)%N then (k', v') :: obj_insert_index n k v o'
          else (k, v) :: o
      | None => (k, v) :: o
      end
  end.

(** [o[k] = v]: an existing property keeps its place, a new one is
    created at the place its key has in the enumeration order. *)
Definition obj_set (k : string) (v : V) (o : list (string * V)) : list (string * V) :=
  match obj_get k o with
  | Some _ => obj_update k v o
  | None =>
      match array_index k with
      | Some n => obj_insert_index n k v o
      | None => o ++ [(k, v)]
      end
  end.

(** [Object.fromEntries]. *)
Definition fromEntries (es : list (string * V)) : list (string * V) :=
  fold_left (λ o e, obj_set e.1 e.2 o) es [].

Definition keys (o : list (string * V)) : list string := o.*1.
End objects.

(** [Object.entries]: a TypeError on [undefined] and [null]; the indexed
    elements of an array and the indexed code units of a string; nothing for
    a number or a boolean. *)
Definition indexed {A} (l : list A) : list (string * A) :=
  imap (λ i x, (pretty (N.of_nat i), x)) l.

Definition code_units (s : string) : list value :=
  (λ a, VStr (String a EmptyString)) <$> String.list_ascii_of_string s.

Definition entries (v : value) : completion (list (string * value)) :=
  match v with
  | VUndefined | VNull => TypeError
  | VBool _ | VNum _ => Normal []
  | VStr s => Normal (indexed (code_units s))
  | VArr items => Normal (indexed items)
  | VObj props => Normal props
  end.

(** [v.k] for the member names this module reads ([metadata], [files],
    [access], [embargo], [pids]): none of them is a member of a string, an
    array, a number or a boolean, so only an object can have one.  Reading a
    member of [undefined] or [null] is a TypeError. *)
Definition member (v : value) (k : string) : completion value :=
  match v with
  | VUndefined | VNull => TypeError
  | VObj props => Normal (default VUndefined (obj_get k props))
  | _ => Normal VUndefined
  end.

(** [v?.k]. *)
Definition member_opt (v : value) (k : string) : completion value :=
  match v with
  | VUndefined | VNull => Normal VUndefined
  | _ => member v k
  end.

(** lodash [isObject]: the language type Object, arrays included. *)
Definition _isObject (v : value) : bool :=
  match v with
  | VArr _ | VObj _ => true
  | _ => false
  end.

(** lodash [isEmpty]: [null] and [undefined] are empty, an array or a string
    is empty when its length is zero, an object when it has no own
    enumerable key, and every number and boolean is empty. *)
Definition _isEmpty (v : value) : bool :=
  match v with
  | VUndefined | VNull | VBool _ | VNum _ => true
  | VStr s => String.eqb s ""
  | VArr items => match items with [] => true | _ => false end
  | VObj props => match props with [] => true | _ => false end
  end.


(** ** The data model *)

(** Server-provided URLs; [self_html] is the canonical address. *)
Record Links : Type := {
  self_html : string;
  relations : list (string * string);
}.

(** The [data] of a backend response: a record with its id and links. *)
Record Data : Type := {
  data_id : string;
  data_links : Links;
  data_fields : value;
}.

(** What a backend call resolves with: [{data, errors?}]. *)
Record Response : Type := {
  resp_data : Data;
  resp_errors : value;
}.

(** The draft handed over by the form: [id] is absent until the first
    save. *)
Record Draft : Type := {
  draft_id : option string;
  draft_fields : value;
}.

Record Community : Type := {
  uuid : string;
}.

(** [depositState.community]. *)
Record CommunityState : Type := {
  selected : option Community;
  recordHasInclusionRequest : bool;
  isReviewForSelectedCommunity : bool;
}.

(** Modelled from the spec: [../state/types] is not in src.  Its constants
    are the names that [deposit.js] and [FormFeedback.js] import, taken as
    pairwise distinct tags. *)
Inductive ActionType : Type :=
| DISCARD_PID_FAILED
| DISCARD_PID_STARTED
| DISCARD_PID_SUCCEEDED
| DRAFT_DELETE_FAILED
| DRAFT_DELETE_STARTED
| DRAFT_FETCHED
| DRAFT_HAS_VALIDATION_ERRORS
| DRAFT_PREVIEW_FAILED
| DRAFT_PREVIEW_STARTED
| DRAFT_PUBLISH_FAILED
| DRAFT_PUBLISH_STARTED
| DRAFT_SAVE_FAILED
| DRAFT_SAVE_STARTED
| DRAFT_SAVE_SUCCEEDED
| DRAFT_SUBMIT_REVIEW_FAILED
| DRAFT_SUBMIT_REVIEW_STARTED
| FILE_IMPORT_FAILED
| FILE_UPLOAD_SAVE_DRAFT_FAILED
| RESERVE_PID_FAILED
| RESERVE_PID_STARTED
| RESERVE_PID_SUCCEEDED
| SET_COMMUNITY.

Global Instance ActionType_eq_dec : EqDecision ActionType.
Proof. solve_decision. Defined.

(** The [deposit] slice of the store. *)
Record DepositState : Type := {
  record : Data;
  community : CommunityState;
  actionState : option ActionType;
  errors : value;
}.

(** ** FormFeedback.js *)

(** The strings are those of the source language: [i18next.t] is the
    translation lookup, which returns its key when no catalogue is loaded. *)
Definition defaultLabels : gmap string string :=
  list_to_map [
    ("files.enabled", "Files");
    ("metadata.resource_type", "Resource type");
    ("metadata.title", "Title");
    ("metadata.additional_titles", "Additional titles");
    ("metadata.publication_date", "Publication date");
    ("metadata.creators", "Creators");
    ("metadata.contributors", "Contributors");
    ("metadata.description", "Description");
    ("metadata.additional_descriptions", "Additional descriptions");
    ("metadata.rights", "Licenses");
    ("metadata.languages", "Languages");
    ("metadata.dates", "Dates");
    ("metadata.version", "Version");
    ("metadata.publisher", "Publisher");
    ("metadata.related_identifiers", "Related works");
    ("metadata.identifiers", "Alternate identifiers");
    ("access.embargo.until", "Embargo until");
    ("pids.doi", "DOI");
    ("pids", "PIDS")
  ].

Definition oops (what : string) : string :=
  "Oops, something went wrong! " +:+ what +:+
  " Please try again. If the problem persists, contact user support.".

(** The table [ACTIONS]: the feedback kind and the message of an action
    state; the other action types have no entry. *)
Definition ACTIONS (a : ActionType) : option (string * string) :=
  match a with
  | DRAFT_SAVE_SUCCEEDED => Some ("positive", "Record successfully saved.")
  | DRAFT_HAS_VALIDATION_ERRORS =>
      Some ("warning", "Record saved with validation errors:")
  | DRAFT_SAVE_FAILED => Some ("negative", oops "The draft was not saved.")
  | DRAFT_PUBLISH_FAILED => Some ("negative", oops "The draft was not published.")
  | DRAFT_SUBMIT_REVIEW_FAILED =>
      Some ("negative", oops "The draft was not submitted for review.")
  | DRAFT_DELETE_FAILED => Some ("negative", oops "The draft was not deleted.")
  | DRAFT_PREVIEW_FAILED => Some ("negative", oops "The draft cannot be previewed.")
  | RESERVE_PID_FAILED => Some ("negative", oops "The identifier was not reserved.")
  | DISCARD_PID_FAILED => Some ("negative", oops "The identifier was not discarded.")
  | FILE_UPLOAD_SAVE_DRAFT_FAILED =>
      Some ("negative",
            oops "The draft could not be saved before uploading the file.")
  | FILE_IMPORT_FAILED =>
      Some ("negative",
            oops "Importing files from the previous draft version failed.")
  | _ => None
  end.

(** The members that every plain object inherits from [Object.prototype].
    Each of them is a function or an object: truthy, and without a [concat]
    method. *)
Definition Object_prototype_members : list string :=
  [ "constructor"; "__defineGetter__"; "__defineSetter__"; "hasOwnProperty";
    "__lookupGetter__"; "__lookupSetter__"; "isPrototypeOf";
    "propertyIsEnumerable"; "toString"; "valueOf"; "__proto__";
    "toLocaleString" ].

(** What [renderErrorMessages] returns: [messages[0]] as it is, or a [<ul>]
    with one [<li>] per unique message. *)
Inductive rendered : Type :=
| Inline (m : option string)
| Ul (items : list string).

(** [[...new Set(messages)]]: a Set keeps its elements in insertion order
    and ignores the insertion of an element it already has. *)
Definition Set_add (acc : list string) (m : string) : list string :=
  if bool_decide (m ∈ acc) then acc else acc ++ [m].

Definition Set_of (messages : list string) : list string :=
  fold_left Set_add messages [].

Definition renderErrorMessages (messages : list string) : rendered :=
  let uniqueMessages := Set_of messages in
  if (length uniqueMessages =? 1)%nat then Inline (messages !! 0%nat)
  else Ul uniqueMessages.

(** The [<Message>] element that [render] returns. *)
Record MessageElement : Type := {
  positive : bool;
  warning : bool;
  negative : bool;
  strong : string;
  Message_List : option (list (string * rendered));
}.

Section DisconnectedFormFeedback.
(** [leafTraverse] of [../utils] is not in src: it is a parameter, the
    sequence of leaves that it hands to its callback, in order. *)
Variable leafTraverse : value → list string.

(** [this.labels]. *)
Variable labels : gmap string string.

Definition toErrorMessages (errorValue : value) : list string :=
  leafTraverse errorValue.

Definition collapse (section : string) (es : list (string * value))
  : list (string * value) :=
  (λ e, (section +:+ e.1, e.2)) <$> es.

(** Step 0: the object with collapsed first and second level keys. *)
Definition step0 (errors : value) : completion (list (string * value)) :=
  m ← member errors "metadata";
  let metadata := js_or m (VObj []) in
  step0_metadata ← collapse "metadata." <$> entries metadata;
  f ← member errors "files";
  let files := js_or f (VObj []) in
  step0_files ← collapse "files." <$> entries files;
  a ← member errors "access";
  e ← member_opt a "embargo";
  let access := js_or e (VObj []) in
  step0_access ← collapse "access.embargo." <$> entries access;
  p ← member errors "pids";
  let pids := js_or p (VObj []) in
  step0_pids ←
    (if _isObject pids then collapse "pids." <$> entries pids
     else mret [("pids", pids)]);
  mret (fromEntries (step0_metadata ++ step0_files ++ step0_access ++ step0_pids)).

(** Step 1: each error value becomes its array of error messages. *)
Definition step1 (errors : value) : completion (list (string * list string)) :=
  s0 ← step0 errors;
  mret (fromEntries ((λ e, (e.1, toErrorMessages e.2)) <$> s0)).

(** [this.labels[key] || 'Unknown field'].  The label table is a plain
    object, read here at the dotted keys only. *)
Definition label_of (key : string) : string :=
  match labels !! key with
  | Some l => if String.eqb l "" then "Unknown field" else l
  | None => "Unknown field"
  end.

(** One turn of the loop of step 2.  [labelledErrorMessages[label]] is an
    own property once the label has been assigned; before that it is
    [undefined], unless the label names an inherited member, which has no
    [concat] to call. *)
Definition group (s1 : list (string * list string))
    (labelledErrorMessages : list (string * list string)) (key : string)
  : completion (list (string * list string)) :=
  let label := label_of key in
  messages ←
    match obj_get label labelledErrorMessages with
    | Some ms => mret ms
    | None =>
        if bool_decide (label ∈ Object_prototype_members) then TypeError
        else mret []
    end;
  mret (obj_set label (messages ++ default [] (obj_get key s1))
          labelledErrorMessages).

(** Step 2: [for (const key in step1)]. *)
Definition step2 (s1 : list (string * list string))
  : completion (list (string * list string)) :=
  fold_left (λ acc key, l ← acc; group s1 l key) (keys s1) (mret []).

Definition toLabelledErrorMessages (errors : value)
  : completion (list (string * list string)) :=
  s1 ← step1 errors;
  step2 s1.

(** [render]: [None] is the [null] that renders nothing. *)
Definition render (actionState : option ActionType) (props_errors : value)
  : completion (option MessageElement) :=
  let errors := js_or props_errors (VObj []) in
  match actionState ≫= ACTIONS with
  | None => mret None
  | Some (feedback, message) =>
      if String.eqb message "" then mret None
      else
        labelledMessages ← toLabelledErrorMessages errors;
        let listErrors :=
          (λ e, (e.1, renderErrorMessages e.2)) <$> labelledMessages in
        mret (Some {|
          positive := String.eqb feedback "positive";
          warning := String.eqb feedback "warning";
          negative := String.eqb feedback "negative";
          strong := message;
          Message_List :=
            if (0 <? length listErrors)%nat then Some listErrors else None;
        |})
  end.
End DisconnectedFormFeedback.

(** The constructor: [{...defaultLabels, ...props.labels}]. *)
Definition DisconnectedFormFeedback_labels (props_labels : gmap string string)
  : gmap string string :=
  props_labels ∪ defaultLabels.

Definition mapStateToProps (state : DepositState) : option ActionType * value :=
  (actionState state, errors state).

(** The connected component, rendered from the store. *)
Definition FormFeedback (leafTraverse : value → list string)
    (props_labels : gmap string string) (state : DepositState)
  : completion (option MessageElement) :=
  let props := mapStateToProps state in
  render leafTraverse (DisconnectedFormFeedback_labels props_labels)
    props.1 props.2.

(** Modelled from the spec: [leafTraverse] of [../utils] is not in src.
    Section 4.1 describes the traversal ([flattenErrors]): a string is the
    single message; a mapping or a sequence is walked depth first, the
    children in their key or index order, and the results are concatenated;
    any other leaf contributes nothing. *)
Fixpoint flattenErrors (v : value) : list string :=
  match v with
  | VStr s => [s]
  | VArr items => concat (map flattenErrors items)
  | VObj props => concat (map (λ p, flattenErrors p.2) props)
  | _ => []
  end.

(** ** deposit.js *)

(** The payload of an action. *)
Inductive Payload : Type :=
| NoPayload
| PData (data : Data)
| PErrors (errors : value)
| PDataErrors (data : Data) (errors : value)
| PPidType (pidType : string)
| PCommunity (community : option Community).

Record Action : Type := {
  type : ActionType;
  payload : Payload;
}.

(** The calls on [config.service.drafts], with their arguments. *)
Inductive Call : Type :=
| CSave (draft : Draft)
| CRead (links : Links)
| CDelete (links : Links)
| CPublish (links : Links)
| CSubmitReview (links : Links)
| CReservePID (links : Links) (pidType : string)
| CDiscardPID (links : Links) (pidType : string)
| CCreateOrUpdateReview (links : Links) (communityUUID : string)
| CDeleteReview (links : Links).

(** What an operation does to its environment, in the order in which it
    does it. *)
Inductive Event : Type :=
| Dispatched (a : Action)
| Called (c : Call)
| HistoryReplaceState (url : string)
| LocationReplace (url : string)
| LocationAssign (url : string).

Section lifecycle.
(** What a backend call rejects with; [error.errors] is all that the
    controller reads of it. *)
Context {Rejection : Type} (rejection_errors : Rejection → value).

(** The state of the backend, which a call may change. *)
Context {Backend : Type}.

(** The reducer of the [deposit] slice is not in src: a parameter. *)
Context (reducer : DepositState → Action → DepositState).

Inductive Outcome (A : Type) : Type :=
| Resolved (a : A)
| Rejected (e : Rejection).
Arguments Resolved {A} a.
Arguments Rejected {A} e.

(** [config.service.drafts]. *)
Record DraftsService : Type := {
  drafts_save : Draft → Backend → Outcome Response * Backend;
  drafts_read : Links → Backend → Outcome Response * Backend;
  drafts_delete : Links → Backend → Outcome unit * Backend;
  drafts_publish : Links → Backend → Outcome Response * Backend;
  drafts_submitReview : Links → Backend → Outcome Response * Backend;
  drafts_reservePID : Links → string → Backend → Outcome Response * Backend;
  drafts_discardPID : Links → string → Backend → Outcome Response * Backend;
  drafts_createOrUpdateReview :
    Links → string → Backend → Outcome unit * Backend;
  drafts_deleteReview : Links → Backend → Outcome unit * Backend;
}.

(** What a [throw] carries: a backend rejection, a response ([_saveDraft]
    throws the response that has validation errors), or a TypeError. *)
Inductive Thrown : Type :=
| ThrownError (e : Rejection)
| ThrownResponse (r : Response)
| ThrownTypeError.

(** [error.errors] in a [catch]. *)
Definition thrown_errors (error : Thrown) : value :=
  match error with
  | ThrownError e => rejection_errors e
  | ThrownResponse r => resp_errors r
  | ThrownTypeError => VUndefined
  end.

Record World : Type := {
  backend : Backend;
  store : DepositState;
  trace : list Event;
}.

Inductive Settled (A : Type) : Type :=
| Fulfilled (a : A)
| Threw (t : Thrown).
Arguments Fulfilled {A} a.
Arguments Threw {A} t.

(** An [async] function: it runs on the world and settles. *)
Definition Promise (A : Type) : Type := World → Settled A * World.

#[local] Instance Promise_ret : MRet Promise := λ A a w, (Fulfilled a, w).
#[local] Instance Promise_bind : MBind Promise := λ A B k m w,
  match m w with
  | (Fulfilled a, w') => k a w'
  | (Threw t, w') => (Threw t, w')
  end.

Definition throw {A} (t : Thrown) : Promise A := λ w, (Threw t, w).

(** [try { m } catch (error) { handler }]. *)
Definition try_catch {A} (m : Promise A) (handler : Thrown → Promise A)
  : Promise A := λ w,
  match m w with
  | (Fulfilled a, w') => (Fulfilled a, w')
  | (Threw t, w') => handler t w'
  end.

Definition emit (e : Event) : Promise unit := λ w,
  (Fulfilled (),
   {| backend := backend w; store := store w; trace := trace w ++ [e] |}).

Definition dispatch (a : Action) : Promise unit := λ w,
  (Fulfilled (),
   {| backend := backend w;
      store := reducer (store w) a;
      trace := trace w ++ [Dispatched a] |}).

(** [getState().deposit]. *)
Definition getState : Promise DepositState := λ w, (Fulfilled (store w), w).

(** [await] of a call on the service. *)
Definition await {A} (c : Call) (f : Backend → Outcome A * Backend)
  : Promise A := λ w,
  let '(o, b) := f (backend w) in
  let w' :=
    {| backend := b; store := store w; trace := trace w ++ [Called c] |} in
  match o with
  | Resolved a => (Fulfilled a, w')
  | Rejected e => (Threw (ThrownError e), w')
  end.

Definition changeURLAfterCreation (draftURL : string) : Promise unit :=
  emit (HistoryReplaceState draftURL).

(** [draft.id ? true : false]. *)
Definition hasAlreadyId (draft : Draft) : bool :=
  match draft_id draft with
  | Some id => negb (String.eqb id "")
  | None => false
  end.

Definition saveDraftWithUrlUpdate (draft : Draft) (draftsService : DraftsService)
  : Promise Response :=
  let hasAlreadyId := hasAlreadyId draft in
  response ← await (CSave draft) (drafts_save draftsService draft);
  (if negb hasAlreadyId then
     let draftURL := self_html (data_links (resp_data response)) in
     changeURLAfterCreation draftURL
   else mret ());;
  mret response.

Definition shouldDeleteReview (communityState : CommunityState) : bool :=
  recordHasInclusionRequest communityState
  && negb (bool_decide (is_Some (selected communityState))).

Definition shouldUpdateReview (communityState : CommunityState) : bool :=
  bool_decide (is_Some (selected communityState))
  && negb (isReviewForSelectedCommunity communityState).

(** [communityState.selected.uuid]. *)
Definition selected_uuid (communityState : CommunityState) : Promise string :=
  match selected communityState with
  | Some c => mret (uuid c)
  | None => throw ThrownTypeError
  end.

Definition _saveDraft (draft : Draft) (draftsService : DraftsService)
    (depositState : DepositState) (failType : ActionType) : Promise Response :=
  response ←
    try_catch (saveDraftWithUrlUpdate draft draftsService)
      (λ error,
         dispatch {| type := failType;
                     payload := PErrors (thrown_errors error) |};;
         throw error);
  let draftHasValidationErrors := negb (_isEmpty (resp_errors response)) in
  if draftHasValidationErrors then
    dispatch {| type := DRAFT_HAS_VALIDATION_ERRORS;
                payload := PDataErrors (resp_data response)
                             (resp_errors response) |};;
    throw (ThrownResponse response)
  else
    let communityState := community depositState in
    let shouldDeleteReview := shouldDeleteReview communityState in
    let shouldUpdateReview := shouldUpdateReview communityState in
    if shouldUpdateReview || shouldDeleteReview then
      let draftWithLinks := resp_data response in
      (if shouldDeleteReview then
         await (CDeleteReview (data_links draftWithLinks))
           (drafts_deleteReview draftsService (data_links draftWithLinks))
       else if shouldUpdateReview then
         communityUUID ← selected_uuid communityState;
         await (CCreateOrUpdateReview (data_links draftWithLinks) communityUUID)
           (drafts_createOrUpdateReview draftsService
              (data_links draftWithLinks) communityUUID)
       else mret ());;
      response ← await (CRead (data_links draftWithLinks))
                   (drafts_read draftsService (data_links draftWithLinks));
      dispatch {| type := DRAFT_FETCHED;
                  payload := PData (resp_data response) |};;
      mret response
    else mret response.

(** The thunks receive [(dispatch, getState, config)]; [dispatch] and
    [getState] act on the world, [config.service.drafts] is passed on. *)
Definition save (draft : Draft) (config : DraftsService) : Promise unit :=
  dispatch {| type := DRAFT_SAVE_STARTED; payload := NoPayload |};;
  depositState ← getState;
  response ← _saveDraft draft config depositState DRAFT_SAVE_FAILED;
  dispatch {| type := DRAFT_SAVE_SUCCEEDED;
              payload := PData (resp_data response) |}.

Definition publish (draft : Draft) (config : DraftsService) : Promise unit :=
  dispatch {| type := DRAFT_PUBLISH_STARTED; payload := NoPayload |};;
  depositState ← getState;
  response ← _saveDraft draft config depositState DRAFT_PUBLISH_FAILED;
  let draftWithLinks := resp_data response in
  try_catch
    (response ← await (CPublish (data_links draftWithLinks))
                  (drafts_publish config (data_links draftWithLinks));
     let recordURL := self_html (data_links (resp_data response)) in
     emit (LocationReplace recordURL))
    (λ error,
       dispatch {| type := DRAFT_PUBLISH_FAILED;
                   payload := PErrors (thrown_errors error) |};;
       throw error).

Definition submitReview (draft : Draft) (config : DraftsService) : Promise unit :=
  dispatch {| type := DRAFT_SUBMIT_REVIEW_STARTED; payload := NoPayload |};;
  depositState ← getState;
  response ← _saveDraft draft config depositState DRAFT_SUBMIT_REVIEW_FAILED;
  let draftWithLinks := resp_data response in
  try_catch
    (response ← await (CSubmitReview (data_links draftWithLinks))
                  (drafts_submitReview config (data_links draftWithLinks));
     let requestURL := "/me/requests/" +:+ data_id (resp_data response) in
     emit (LocationReplace requestURL))
    (λ error,
       dispatch {| type := DRAFT_SUBMIT_REVIEW_FAILED;
                   payload := PErrors (thrown_errors error) |};;
       throw error).

Definition preview (draft : Draft) (config : DraftsService) : Promise unit :=
  dispatch {| type := DRAFT_PREVIEW_STARTED; payload := NoPayload |};;
  depositState ← getState;
  _saveDraft draft config depositState DRAFT_PREVIEW_FAILED;;
  emit (LocationAssign
          ("/records/" +:+ default "undefined" (draft_id draft) +:+ "?preview=1")).

Definition delete_ (isDiscardingVersion : bool) (config : DraftsService)
  : Promise unit :=
  dispatch {| type := DRAFT_DELETE_STARTED; payload := NoPayload |};;
  try_catch
    (depositState ← getState;
     let draft := record depositState in
     await (CDelete (data_links draft)) (drafts_delete config (data_links draft));;
     let redirectURL :=
       if isDiscardingVersion then "/records/" +:+ data_id draft
       else "/me/uploads" in
     emit (LocationReplace redirectURL))
    (λ error,
       dispatch {| type := DRAFT_DELETE_FAILED;
                   payload := PErrors (thrown_errors error) |};;
       throw error).

(** Reserve the PID after having saved the current draft. *)
Definition reservePID (draft : Draft) (pidType : string) (config : DraftsService)
  : Promise unit :=
  dispatch {| type := RESERVE_PID_STARTED; payload := PPidType pidType |};;
  try_catch
    (response ← saveDraftWithUrlUpdate draft config;
     let draftWithLinks := resp_data response in
     response ← await (CReservePID (data_links draftWithLinks) pidType)
                  (drafts_reservePID config (data_links draftWithLinks) pidType);
     dispatch {| type := RESERVE_PID_SUCCEEDED;
                 payload := PData (resp_data response) |})
    (λ error,
       dispatch {| type := RESERVE_PID_FAILED;
                   payload := PErrors (thrown_errors error) |};;
       throw error).

(** Discard a previously reserved PID. *)
Definition discardPID (draft : Draft) (pidType : string) (config : DraftsService)
  : Promise unit :=
  dispatch {| type := DISCARD_PID_STARTED; payload := PPidType pidType |};;
  try_catch
    (response ← saveDraftWithUrlUpdate draft config;
     let draftWithLinks := resp_data response in
     response ← await (CDiscardPID (data_links draftWithLinks) pidType)
                  (drafts_discardPID config (data_links draftWithLinks) pidType);
     dispatch {| type := DISCARD_PID_SUCCEEDED;
                 payload := PData (resp_data response) |})
    (λ error,
       dispatch {| type := DISCARD_PID_FAILED;
                   payload := PErrors (thrown_errors error) |};;
       throw error).

Definition changeSelectedCommunity (community : option Community) : Promise unit :=
  dispatch {| type := SET_COMMUNITY; payload := PCommunity community |}.
End lifecycle.

Arguments Resolved {Rejection A} a.
Arguments Rejected {Rejection A} e.
Arguments Fulfilled {Rejection A} a.
Arguments Threw {Rejection A} t.
Arguments ThrownError {Rejection} e.
Arguments ThrownResponse {Rejection} r.
Arguments ThrownTypeError {Rejection}.

(** ** Definitions that follow the words of the specification *)

(** [renderMessages]: the unique messages in first-seen order.  A message is
    kept at the place where it is seen for the first time. *)
Fixpoint first_seen (seen messages : list string) : list string :=
  match messages with
  | [] => []
  | m :: messages' =>
      if bool_decide (m ∈ seen) then first_seen seen messages'
      else m :: first_seen (seen ++ [m]) messages'
  end.

Definition deduplicate (messages : list string) : list string :=
  first_seen [] messages.

(** [labelErrors], step 1 of section 4.1: the value of a member of a
    document ([undefined] when it is absent), the children of a section (an
    absent section has none), and the dotted keys of the four sections. *)
Definition field_of (v : value) (name : string) : value :=
  match v with
  | VObj props => default VUndefined (obj_get name props)
  | _ => VUndefined
  end.

Definition child_entries (section : value) : list (string * value) :=
  if truthy section then
    match section with
    | VStr s => indexed (code_units s)
    | VArr items => indexed items
    | VObj props => props
    | _ => []
    end
  else [].

Definition child_keys (section : value) : list string :=
  (child_entries section).*1.

Definition dotted_entries (errors : value) : list (string * value) :=
  let pids := field_of errors "pids" in
  collapse "metadata." (child_entries (field_of errors "metadata")) ++
  collapse "files." (child_entries (field_of errors "files")) ++
  collapse "access.embargo."
    (child_entries (field_of (field_of errors "access") "embargo")) ++
  (if truthy pids && negb (_isObject pids) then [("pids", pids)]
   else collapse "pids." (child_entries pids)).

(** The clause of section 4.1 on [pids], read on every document: a [pids]
    value that is not a keyed mapping is kept whole under the key [pids]. *)
Definition is_keyed_mapping (v : value) : bool :=
  match v with
  | VObj _ => true
  | _ => false
  end.

Definition pids_kept_whole_when_not_a_mapping : Prop :=
  ∀ (doc : list (string * value)) (pids : value),
    obj_get "pids" doc = Some pids →
    is_keyed_mapping pids = false →
    ∃ s0, step0 (VObj doc) = Normal s0 ∧ obj_get "pids" s0 = Some pids.

(** [labelErrors], steps 3 and 4 of section 4.1: the entries whose key has
    the label [L], in the order in which the keys are met, and their
    message sequences concatenated in that order. *)
Definition labelled_as (labels : gmap string string) (L : string)
    (s1 : list (string * list string)) : list (string * list string) :=
  filter (λ e, label_of labels e.1 = L) s1.

Definition merged (labels : gmap string string) (L : string)
    (s1 : list (string * list string)) : option (list string) :=
  match labelled_as labels L s1 with
  | [] => None
  | es => Some (concat es.*2)
  end.

(** No label of the table names a member of [Object.prototype]. *)
Definition own_labels (labels : gmap string string) : Prop :=
  map_Forall (λ _ l, l ∉ Object_prototype_members) labels.

(** The invariant of the loop of step 2: what a label holds once the keys
    [ks] have been added to what it held before. *)
Definition messages_of (s1 : list (string * list string)) (key : string)
  : list string :=
  default [] (obj_get key s1).

Definition after (s1 : list (string * list string))
    (old : option (list string)) (ks : list string) : option (list string) :=
  match old, ks with
  | None, [] => None
  | _, _ => Some (default [] old ++ concat (messages_of s1 <$> ks))
  end.

(** The document of the example of section 4.1: an error on the title and
    one on the additional titles. *)
Definition two_titles : value :=
  VObj [("metadata",
         VObj [("title", VArr [VStr "x"]);
               ("additional_titles", VArr [VStr "y"])])].

(** The action states that have an entry in [ACTIONS]. *)
Definition with_feedback : list ActionType :=
  [ DRAFT_SAVE_SUCCEEDED; DRAFT_HAS_VALIDATION_ERRORS; DRAFT_SAVE_FAILED;
    DRAFT_PUBLISH_FAILED; DRAFT_SUBMIT_REVIEW_FAILED; DRAFT_DELETE_FAILED;
    DRAFT_PREVIEW_FAILED; RESERVE_PID_FAILED; DISCARD_PID_FAILED;
    FILE_UPLOAD_SAVE_DRAFT_FAILED; FILE_IMPORT_FAILED ].

(** A store in which a save has just started, for the examples. *)
Definition a_record : Data :=
  {| data_id := "abcde-12345";
     data_links :=
       {| self_html := "/uploads/abcde-12345"; relations := [] |};
     data_fields := VObj [] |}.

Definition no_community : CommunityState :=
  {| selected := None;
     recordHasInclusionRequest := false;
     isReviewForSelectedCommunity := false |}.

Definition save_started : DepositState :=
  {| record := a_record;
     community := no_community;
     actionState := Some DRAFT_SAVE_STARTED;
     errors := VUndefined |}.

(** ** Observations on a trace *)

Definition dispatched (evs : list Event) : list Action :=
  omap (λ e, match e with Dispatched a => Some a | _ => None end) evs.

Definition called (evs : list Event) : list Call :=
  omap (λ e, match e with Called c => Some c | _ => None end) evs.

(** The payloads of the actions of one type. *)
Definition dispatched_as (t : ActionType) (evs : list Event) : list Payload :=
  payload <$> filter (λ a, type a = t) (dispatched evs).

Definition is_review_mutation (c : Call) : bool :=
  match c with
  | CCreateOrUpdateReview _ _ | CDeleteReview _ => true
  | _ => false
  end.

Definition is_read (c : Call) : bool :=
  match c with
  | CRead _ => true
  | _ => false
  end.

(** The calls of the review reconciliation: the two mutations and the
    re-fetch. *)
Definition review_calls (evs : list Event) : list Call :=
  filter (λ c, is_review_mutation c || is_read c) (called evs).

Definition address_replaced (evs : list Event) : Prop :=
  ∃ url, HistoryReplaceState url ∈ evs.

(** The decision table of section 4.2 over the community state. *)
Inductive ReviewAction : Type :=
| NoReviewAction
| CreateOrUpdateReview (communityUUID : string)
| DeleteReview.

Definition review_decision (communityState : CommunityState) : ReviewAction :=
  match selected communityState with
  | Some c =>
      if isReviewForSelectedCommunity communityState then NoReviewAction
      else CreateOrUpdateReview (uuid c)
  | None =>
      if recordHasInclusionRequest communityState then DeleteReview
      else NoReviewAction
  end.

(** The backend calls of the reconciliation for a decision: the mutation
    and then the re-fetch of the draft. *)
Definition review_mutation (links : Links) (decision : ReviewAction) : list Call :=
  match decision with
  | NoReviewAction => []
  | CreateOrUpdateReview communityUUID =>
      [CCreateOrUpdateReview links communityUUID]
  | DeleteReview => [CDeleteReview links]
  end.

Definition refetch (links : Links) (decision : ReviewAction) : list Call :=
  match decision with
  | NoReviewAction => []
  | _ => [CRead links]
  end.

Definition fetched (decision : ReviewAction) (response : Response) : list Action :=
  match decision with
  | NoReviewAction => []
  | _ => [{| type := DRAFT_FETCHED; payload := PData (resp_data response) |}]
  end.

(** The contract of an operation on a PID (section 4.2): it persists with
    the create-or-update step only, then makes its own call with the links of
    the persisted draft and the PID type. *)
Section pid_contract.
Context {Rejection : Type} (rejection_errors : Rejection → value).
Context {Backend : Type}.

Definition pid_operation_contract
    (started succeeded failed : ActionType)
    (pid_step : @DraftsService Rejection Backend → Links → string → Backend →
                Outcome Response * Backend)
    (pid_call : Links → string → Call)
    (operation : Draft → string → @DraftsService Rejection Backend →
                 @Promise Rejection Backend unit) : Prop :=
  ∀ config draft pidType w,
  ∃ settled w' evs,
    operation draft pidType config w = (settled, w') ∧
    trace w' = trace w ++ evs ∧
    dispatched_as DRAFT_HAS_VALIDATION_ERRORS evs = [] ∧
    review_calls evs = [] ∧
    dispatched_as started evs = [PPidType pidType] ∧
    match settled with
    | Fulfilled _ =>
        ∃ saved b response b',
          drafts_save config draft (backend w) = (Resolved saved, b) ∧
          pid_step config (data_links (resp_data saved)) pidType b
            = (Resolved response, b') ∧
          called evs =
            [CSave draft; pid_call (data_links (resp_data saved)) pidType] ∧
          dispatched_as succeeded evs = [PData (resp_data response)] ∧
          dispatched_as failed evs = []
    | Threw t =>
        ∃ error,
          t = ThrownError error ∧
          (drafts_save config draft (backend w) = (Rejected error, backend w')
           ∨ ∃ saved b,
               drafts_save config draft (backend w) = (Resolved saved, b) ∧
               pid_step config (data_links (resp_data saved)) pidType b
                 = (Rejected error, backend w')) ∧
          dispatched_as failed evs = [PErrors (rejection_errors error)] ∧
          dispatched_as succeeded evs = []
    end.
End pid_contract.

(** ** A backend for the examples

    The backend counts the calls it has served; it rejects with an object
    whose [errors] member is read by the controller. *)

Definition errors_of (rejection : value) : value := field_of rejection "errors".

Definition ok_response : Response :=
  {| resp_data := a_record; resp_errors := VUndefined |}.

Definition invalid_response : Response :=
  {| resp_data := a_record;
     resp_errors :=
       VObj [("metadata",
              VObj [("title", VArr [VStr "Missing data for required field."])])] |}.

Definition server_error : value :=
  VObj [("errors", VObj [("message", VStr "Internal server error")])].

(** Every call resolves, except that the save answers as it is told. *)
Definition answering (save_answer : @Outcome value Response)
  : @DraftsService value nat :=
  {| drafts_save := λ _ n, (save_answer, S n);
     drafts_read := λ _ n, (Resolved ok_response, S n);
     drafts_delete := λ _ n, (Resolved (), S n);
     drafts_publish := λ _ n, (Resolved ok_response, S n);
     drafts_submitReview := λ _ n, (Resolved ok_response, S n);
     drafts_reservePID := λ _ _ n, (Resolved ok_response, S n);
     drafts_discardPID := λ _ _ n, (Resolved ok_response, S n);
     drafts_createOrUpdateReview := λ _ _ n, (Resolved (), S n);
     drafts_deleteReview := λ _ n, (Resolved (), S n) |}.

(** Modelled from the spec: the reducer is not in src.  Section 3 says that
    the store retains the derived fields of the latest action: its type as
    the action state, its errors and its record. *)
Definition latest_action (state : DepositState) (a : Action) : DepositState :=
  {| record := match payload a with
               | PData d | PDataErrors d _ => d
               | _ => record state
               end;
     community := match payload a with
                  | PCommunity c =>
                      {| selected := c;
                         recordHasInclusionRequest :=
                           recordHasInclusionRequest (community state);
                         isReviewForSelectedCommunity := false |}
                  | _ => community state
                  end;
     actionState := Some (type a);
     errors := match payload a with
               | PErrors e | PDataErrors _ e => e
               | _ => VUndefined
               end |}.

Definition new_draft : Draft :=
  {| draft_id := None;
     draft_fields := VObj [("metadata", VObj [("title", VStr "A title")])] |}.

Definition community_selected : DepositState :=
  {| record := a_record;
     community :=
       {| selected := Some {| uuid := "c0ffee00-0000-4000-8000-000000000001" |};
          recordHasInclusionRequest := false;
          isReviewForSelectedCommunity := false |};
     actionState := None;
     errors := VUndefined |}.

Definition initial_world : @World nat :=
  {| backend := 0; store := community_selected; trace := [] |}.

(** Documents for the examples of the further properties. *)
Definition title_error : list (string * value) :=
  [("metadata", VObj [("title", VArr [VStr "Missing data for required field."])])].

Definition title_and_other_errors : list (string * value) :=
  title_error ++
  [("custom_fields", VObj [("journal", VStr "Not a valid choice.")]);
   ("access", VObj [("record", VStr "Not a valid choice.")])].

(** One turn of the loop of step 2 when the label is no inherited member. *)
Definition group_own_label (labels : gmap string string)
    (s1 acc : list (string * list string)) (key : string)
  : list (string * list string) :=
  obj_set (label_of labels key)
    (default [] (obj_get (label_of labels key) acc) ++ messages_of s1 key) acc.

(** No label of the table is an array index. *)
Definition named_labels (labels : gmap string string) : Prop :=
  map_Forall (λ _ l, array_index l = None) labels.

(** A store that holds the validation errors of a save. *)
Definition save_with_errors : DepositState :=
  {| record := a_record;
     community := no_community;
     actionState := Some DRAFT_HAS_VALIDATION_ERRORS;
     errors := VObj [("metadata", VObj [("title", VArr [])])] |}.

(** ** The thunks that persist the draft, and what they do besides *)

(** The method of the service that a call is made on. *)
Inductive Method : Type :=
| MSave | MRead | MDelete | MPublish | MSubmitReview | MReservePID
| MDiscardPID | MCreateOrUpdateReview | MDeleteReview.

Global Instance Method_eq_dec : EqDecision Method.
Proof. solve_decision. Defined.

Definition method (c : Call) : Method :=
  match c with
  | CSave _ => MSave
  | CRead _ => MRead
  | CDelete _ => MDelete
  | CPublish _ => MPublish
  | CSubmitReview _ => MSubmitReview
  | CReservePID _ _ => MReservePID
  | CDiscardPID _ _ => MDiscardPID
  | CCreateOrUpdateReview _ _ => MCreateOrUpdateReview
  | CDeleteReview _ => MDeleteReview
  end.

(** The events that leave the page: [window.location.replace] and the
    assignment of [window.location]. *)
Definition is_navigation (e : Event) : bool :=
  match e with
  | LocationReplace _ | LocationAssign _ => true
  | _ => false
  end.

Definition navigations (evs : list Event) : list Event :=
  filter (λ e, is_navigation e) evs.

Definition started (t : ActionType) : Action :=
  {| type := t; payload := NoPayload |}.

Section persisting.
Context {Rejection : Type} (rejection_errors : Rejection → value).
Context {Backend : Type}.
Context (reducer : DepositState → Action → DepositState).

(** The thunks that call [_saveDraft], with their START and FAILED types. *)
Definition persisting_thunks
  : list (ActionType * ActionType *
          (Draft → @DraftsService Rejection Backend →
           @Promise Rejection Backend unit)) :=
  [ (DRAFT_SAVE_STARTED, DRAFT_SAVE_FAILED, save rejection_errors reducer);
    (DRAFT_PUBLISH_STARTED, DRAFT_PUBLISH_FAILED,
     publish rejection_errors reducer);
    (DRAFT_SUBMIT_REVIEW_STARTED, DRAFT_SUBMIT_REVIEW_FAILED,
     submitReview rejection_errors reducer);
    (DRAFT_PREVIEW_STARTED, DRAFT_PREVIEW_FAILED,
     preview rejection_errors reducer) ].

(** What the backend answers to the review reconciliation that follows a
    save: the answer to the mutation of the decision, if there is one, and
    then the answer to the read. *)
Definition mutation_answer (config : @DraftsService Rejection Backend)
    (links : Links) (decision : ReviewAction) (b : Backend)
  : option (@Outcome Rejection unit * Backend) :=
  match decision with
  | NoReviewAction => None
  | CreateOrUpdateReview communityUUID =>
      Some (drafts_createOrUpdateReview config links communityUUID b)
  | DeleteReview => Some (drafts_deleteReview config links b)
  end.

Definition reconciliation_answer (config : @DraftsService Rejection Backend)
    (saved : Response) (decision : ReviewAction) (b : Backend)
  : @Outcome Rejection Response * Backend :=
  match mutation_answer config (data_links (resp_data saved)) decision b with
  | None => (Resolved saved, b)
  | Some (Rejected e, b1) => (Rejected e, b1)
  | Some (Resolved _, b1) =>
      drafts_read config (data_links (resp_data saved)) b1
  end.

(** The community state that a thunk reads: the one of the store once its
    START action has been reduced. *)
Definition community_at_start (t : ActionType) (w : @World Backend)
  : CommunityState :=
  community (reducer (store w) (started t)).
End persisting.

(** The address to which [preview] goes: [`/records/${draft.id}?preview=1`]. *)
Definition preview_url (draft : Draft) : string :=
  "/records/" +:+ default "undefined" (draft_id draft) +:+ "?preview=1".

(** A backend that saves and refuses every change of the review. *)
Definition review_rejecting : @DraftsService value nat :=
  {| drafts_save := λ _ n, (Resolved ok_response, S n);
     drafts_read := λ _ n, (Resolved ok_response, S n);
     drafts_delete := λ _ n, (Resolved (), S n);
     drafts_publish := λ _ n, (Resolved ok_response, S n);
     drafts_submitReview := λ _ n, (Resolved ok_response, S n);
     drafts_reservePID := λ _ _ n, (Resolved ok_response, S n);
     drafts_discardPID := λ _ _ n, (Resolved ok_response, S n);
     drafts_createOrUpdateReview := λ _ _ n, (Rejected server_error, S n);
     drafts_deleteReview := λ _ n, (Rejected server_error, S n) |}.

(** ** CreatibutorsModal: the suggestions of the search for names

    A suggestion is made from a result of the names API; the records hold
    the members that the modal reads of a result, with [identifiers] and
    [affiliations] the arrays that the API gives. *)

Module CreatibutorsModal.

Inductive NamesAutocompleteOptions : Type :=
| SEARCH
| SEARCH_ONLY
| OFF.

Global Instance NamesAutocompleteOptions_eq_dec :
  EqDecision NamesAutocompleteOptions.
Proof. solve_decision. Defined.

Record Identifier : Type := {
  scheme : string;
  identifier : string;
}.

Record Affiliation : Type := {
  affiliation_id : string;
  affiliation_name : string;
}.

Record Creatibutor : Type := {
  id : string;
  name : string;
  given_name : string;
  family_name : string;
  identifiers : list Identifier;
  affiliations : list Affiliation;
}.

(** [extra]: the result itself, or the string of the manual entry. *)
Inductive Extra : Type :=
| OfCreatibutor (creatibutor : Creatibutor)
| ManualEntry.

(** [content]: what the header of a suggestion shows (the name, the ORCID
    identifier with the link to it, and the affiliations beneath), or the
    invitation to create a new entry. *)
Inductive Content : Type :=
| PersonHeader (shown_name shown_identifier href subheader : string)
| ManualEntryHeader.

Record Suggestion : Type := {
  text : string;
  value : string;
  extra : Extra;
  key : string;
  content : Content;
}.

(** The callback of [creatibutor.affiliations.forEach], from the index
    [idx] on. *)
Fixpoint forEach_affiliation (length : nat) (idx : nat)
    (affiliations : list Affiliation) (aff_names : string) : string :=
  match affiliations with
  | [] => aff_names
  | affiliation :: rest =>
      let aff_names := aff_names +:+ affiliation_name affiliation in
      let aff_names :=
        if (idx <? length - 1)%nat then aff_names +:+ ", " else aff_names in
      forEach_affiliation length (S idx) rest aff_names
  end.

(** [_find(creatibutor.identifiers, (identifier) => ...)]. *)
Definition find_orcid (creatibutor : Creatibutor) : option Identifier :=
  snd <$> list_find (λ i, scheme i = "orcid") (identifiers creatibutor).

(** The callback of [creatibutors.map]: [orcid.identifier] is a TypeError
    when no identifier has the scheme. *)
Definition suggestion_of (creatibutor : Creatibutor) : completion Suggestion :=
  let orcid := find_orcid creatibutor in
  let aff_names :=
    forEach_affiliation (length (affiliations creatibutor)) 0
      (affiliations creatibutor) "" in
  match orcid with
  | None => TypeError
  | Some orcid =>
      Normal {|
        text := name creatibutor;
        value := identifier orcid;
        extra := OfCreatibutor creatibutor;
        key := id creatibutor;
        content :=
          PersonHeader (name creatibutor) (identifier orcid)
            ("https://orcid.org/" +:+ identifier orcid) aff_names;
      |}
  end.

(** [array.map] with a callback that may throw. *)
Fixpoint map_throwing {A B} (f : A → completion B) (l : list A)
  : completion (list B) :=
  match l with
  | [] => Normal []
  | x :: l' =>
      y ← f x;
      ys ← map_throwing f l';
      mret (y :: ys)
  end.

Definition manual_entry : Suggestion :=
  {| text := "Manual entry";
     value := "Manual entry";
     extra := ManualEntry;
     key := "manual-entry";
     content := ManualEntryHeader |}.

(** [serializeSuggestions], with [this.props.autocompleteNames] and
    [this.state.showPersonForm]. *)
Definition serializeSuggestions (autocompleteNames : NamesAutocompleteOptions)
    (showPersonForm : bool) (creatibutors : list Creatibutor)
  : completion (list Suggestion) :=
  results ← map_throwing suggestion_of creatibutors;
  let showManualEntry :=
    bool_decide (autocompleteNames = SEARCH_ONLY) && negb showPersonForm in
  if showManualEntry then mret (results ++ [manual_entry])
  else mret results.

(** The names, with ", " between two of them. *)
Fixpoint joined (names : list string) : string :=
  match names with
  | [] => ""
  | [n] => n
  | n :: rest => n +:+ ", " +:+ joined rest
  end.

Definition has_orcid (creatibutor : Creatibutor) : Prop :=
  ∃ i, i ∈ identifiers creatibutor ∧ scheme i = "orcid".

(** Two results of the search, the second without ORCID identifier. *)
Definition with_orcid : Creatibutor :=
  {| id := "0000-0001-8135-3489";
     name := "Doe, Jane";
     given_name := "Jane";
     family_name := "Doe";
     identifiers :=
       [ {| scheme := "isni"; identifier := "0000000121032683" |};
         {| scheme := "orcid"; identifier := "0000-0001-8135-3489" |} ];
     affiliations :=
       [ {| affiliation_id := "01ggx4157"; affiliation_name := "CERN" |};
         {| affiliation_id := "000e0be47";
            affiliation_name := "Northwestern University" |} ] |}.

Definition without_orcid : Creatibutor :=
  {| id := "0000000121032683";
     name := "Roe, Richard";
     given_name := "Richard";
     family_name := "Roe";
     identifiers := [ {| scheme := "isni"; identifier := "0000000121032683" |} ];
     affiliations := [] |}.

End CreatibutorsModal.

(** * Properties *)

(** ** Plain objects *)

Example array_index_examples :
  array_index "0" = Some 0%N ∧ array_index "42" = Some 42%N ∧
  array_index "007" = None ∧ array_index "4294967295" = None ∧
  array_index "metadata.title" = None ∧ array_index "" = None.
Proof. vm_compute. done. Qed.

Example obj_set_order :
  obj_set "1" 10 (obj_set "b" 3 (obj_set "2" 2 (obj_set "a" 1 [])))
  = [("1", 10); ("2", 2); ("a", 1); ("b", 3)].
Proof. vm_compute. done. Qed.

Section object_facts.
Context {V : Type}.
Implicit Types (o es : list (string * V)) (k : string) (v : V).

Lemma eqb_decide k k' : String.eqb k k' = bool_decide (k = k').
Proof.
  destruct (String.eqb_spec k k') as [->|Hne].
  - by rewrite bool_decide_eq_true_2.
  - by rewrite bool_decide_eq_false_2.
Qed.

Lemma obj_get_cons k k' v o :
  obj_get k ((k', v) :: o) = if decide (k = k') then Some v else obj_get k o.
Proof. simpl. rewrite eqb_decide. by case_bool_decide; case_decide. Qed.

Lemma obj_get_is_Some k o : is_Some (obj_get k o) ↔ k ∈ keys o.
Proof.
  unfold keys. induction o as [|[k' v'] o IH].
  - simpl. rewrite elem_of_nil. split; [by intros [? ?]|done].
  - rewrite obj_get_cons, fmap_cons, elem_of_cons. simpl.
    case_decide; [subst; split; eauto|].
    rewrite IH. naive_solver.
Qed.

Lemma obj_get_None k o : obj_get k o = None ↔ k ∉ keys o.
Proof. rewrite <- obj_get_is_Some, eq_None_not_Some. done. Qed.

Lemma obj_get_NoDup k v o : NoDup (keys o) → (k, v) ∈ o → obj_get k o = Some v.
Proof.
  unfold keys. induction o as [|[k' v'] o IH]; [by rewrite elem_of_nil|].
  rewrite fmap_cons, NoDup_cons, elem_of_cons, obj_get_cons. simpl.
  intros [Hnotin Hnd] [[= -> ->]|Hin].
  - by rewrite decide_True.
  - rewrite decide_False; [auto|].
    intros ->. apply Hnotin. apply list_elem_of_fmap. by exists (k', v).
Qed.

Lemma obj_get_app k o1 o2 :
  obj_get k (o1 ++ o2) =
  match obj_get k o1 with Some v => Some v | None => obj_get k o2 end.
Proof.
  induction o1 as [|[k' v'] o1 IH]; [done|].
  rewrite <- app_comm_cons, !obj_get_cons. by case_decide.
Qed.

Lemma obj_get_update k k' v o :
  obj_get k' (obj_update k v o) =
  if decide (k' = k) then const v <$> obj_get k o else obj_get k' o.
Proof.
  induction o as [|[k1 v1] o IH]; [by case_decide|].
  simpl obj_update. rewrite eqb_decide. case_bool_decide as Hk.
  - subst k1. rewrite !obj_get_cons. case_decide; [subst|done].
    by rewrite decide_True.
  - rewrite !obj_get_cons, IH. case_decide as Hk'; [subst k'|done].
    by rewrite !decide_False by done.
Qed.

Lemma obj_get_insert_index n k k' v o :
  obj_get k o = None →
  obj_get k' (obj_insert_index n k v o) =
  if decide (k' = k) then Some v else obj_get k' o.
Proof.
  induction o as [|[k1 v1] o IH]; intros Hk.
  - simpl obj_insert_index. rewrite obj_get_cons. by case_decide.
  - rewrite obj_get_cons in Hk. case_decide as Hk1; [done|].
    simpl obj_insert_index.
    destruct (array_index k1) as [n1|]; [destruct (n1 <? n)%N|].
    + rewrite !obj_get_cons, IH by done.
      repeat case_decide; congruence.
    + rewrite obj_get_cons. by case_decide.
    + rewrite obj_get_cons. by case_decide.
Qed.

(** Reading after writing. *)
Lemma obj_get_set k k' v o :
  obj_get k' (obj_set k v o) = if decide (k' = k) then Some v else obj_get k' o.
Proof.
  unfold obj_set. destruct (obj_get k o) as [v0|] eqn:Hk.
  - rewrite obj_get_update, Hk. done.
  - destruct (array_index k) as [n|].
    + by apply obj_get_insert_index.
    + rewrite obj_get_app, obj_get_cons. simpl.
      case_decide; [subst; by rewrite Hk|]. by destruct (obj_get k' o).
Qed.

Lemma elem_of_keys_set k k' v o :
  k' ∈ keys (obj_set k v o) ↔ k' = k ∨ k' ∈ keys o.
Proof.
  rewrite <- !obj_get_is_Some, obj_get_set.
  case_decide; [|naive_solver]. split; eauto.
Qed.

Lemma keys_update k v o : keys (obj_update k v o) = keys o.
Proof.
  unfold keys. induction o as [|[k1 v1] o IH]; [done|].
  simpl. destruct (String.eqb k k1); simpl; [done|]. by f_equal.
Qed.

Lemma keys_insert_index n k v o :
  keys (obj_insert_index n k v o) ≡ₚ k :: keys o.
Proof.
  unfold keys. induction o as [|[k1 v1] o IH]; [done|].
  simpl. destruct (array_index k1) as [n1|]; [destruct (n1 <? n)%N|]; try done.
  simpl. rewrite IH. apply Permutation_swap.
Qed.

Lemma NoDup_keys_set k v o : NoDup (keys o) → NoDup (keys (obj_set k v o)).
Proof.
  intros Hnd. unfold obj_set. destruct (obj_get k o) as [v0|] eqn:Hk.
  - by rewrite keys_update.
  - apply obj_get_None in Hk. destruct (array_index k) as [n|].
    + rewrite keys_insert_index. by apply NoDup_cons.
    + unfold keys in *. rewrite fmap_app. apply NoDup_app. split; [done|].
      split; [|apply NoDup_singleton].
      intros x Hx. simpl. rewrite list_elem_of_singleton. by intros ->.
Qed.

Lemma fromEntries_snoc es k v :
  fromEntries (es ++ [(k, v)]) = obj_set k v (fromEntries es).
Proof. unfold fromEntries. by rewrite fold_left_app. Qed.

Lemma NoDup_keys_fromEntries es : NoDup (keys (fromEntries es)).
Proof.
  induction es as [|[k v] es IH] using rev_ind; [apply NoDup_nil_2|].
  rewrite fromEntries_snoc. by apply NoDup_keys_set.
Qed.

Lemma elem_of_keys_fromEntries k es : k ∈ keys (fromEntries es) ↔ k ∈ es.*1.
Proof.
  induction es as [|[k1 v1] es IH] using rev_ind; [done|].
  rewrite fromEntries_snoc, elem_of_keys_set, IH, fmap_app, elem_of_app.
  simpl. rewrite list_elem_of_singleton. naive_solver.
Qed.

(** The last entry of a key is the one that stays. *)
Lemma obj_get_fromEntries k es :
  obj_get k (fromEntries es) = obj_get k (reverse es).
Proof.
  induction es as [|[k1 v1] es IH] using rev_ind; [done|].
  rewrite fromEntries_snoc, obj_get_set, reverse_app, reverse_singleton.
  change ([(k1, v1)] ++ reverse es) with ((k1, v1) :: reverse es).
  rewrite obj_get_cons, IH. done.
Qed.

(** The entries are kept as they are when their keys are distinct and
    none of them is an array index. *)
Lemma fromEntries_id es :
  NoDup es.*1 → Forall (λ k, array_index k = None) es.*1 → fromEntries es = es.
Proof.
  induction es as [|[k v] es IH] using rev_ind; [done|].
  rewrite fmap_app, NoDup_app, Forall_app. simpl.
  intros (Hnd & Hnotin & _) [Hidx Hk]. apply Forall_inv in Hk.
  simpl in Hk.
  rewrite fromEntries_snoc, IH by done. unfold obj_set.
  assert (obj_get k es = None) as ->.
  { apply obj_get_None. intros Hin. apply (Hnotin k Hin). left. }
  by rewrite Hk.
Qed.
End object_facts.

(** ** The rendering of the messages of one label *)

Lemma Set_of_first_seen acc l : fold_left Set_add l acc = acc ++ first_seen acc l.
Proof.
  revert acc. induction l as [|m l IH]; intros acc; simpl.
  - by rewrite app_nil_r.
  - rewrite IH. unfold Set_add. case_bool_decide; [done|].
    by rewrite <- app_assoc.
Qed.

Lemma elem_of_first_seen seen l m : m ∈ first_seen seen l ↔ m ∈ l ∧ m ∉ seen.
Proof.
  revert seen. induction l as [|x l IH]; intros seen; simpl.
  - rewrite elem_of_nil. tauto.
  - case_bool_decide as Hx.
    + rewrite IH, elem_of_cons. split; [tauto|].
      intros [[->|?] ?]; tauto.
    + rewrite !elem_of_cons, IH, elem_of_app, list_elem_of_singleton.
      destruct (decide (m = x)) as [->|]; tauto.
Qed.

Lemma NoDup_first_seen seen l : NoDup (first_seen seen l).
Proof.
  revert seen. induction l as [|x l IH]; intros seen; simpl.
  - apply NoDup_nil_2.
  - case_bool_decide; [done|]. apply NoDup_cons. split; [|done].
    rewrite elem_of_first_seen, elem_of_app, list_elem_of_singleton. tauto.
Qed.

Lemma Set_of_deduplicate messages : Set_of messages = deduplicate messages.
Proof. unfold Set_of. by rewrite Set_of_first_seen. Qed.

(** C6: [renderErrorMessages] removes the duplicates of its messages by
    string equality and keeps the first-seen order; one unique message is
    returned as it is, as inline text; otherwise the unique messages make a
    list, in that order.  On ["a"; "a"; "b"] the list is ["a"; "b"], on
    ["only"] the result is the bare "only". *)
Theorem renderErrorMessages_spec (messages : list string) :
  Set_of messages = deduplicate messages ∧
  NoDup (deduplicate messages) ∧
  (∀ m, m ∈ deduplicate messages ↔ m ∈ messages) ∧
  renderErrorMessages messages =
    match deduplicate messages with
    | [m] => Inline (Some m)
    | unique => Ul unique
    end ∧
  renderErrorMessages ["a"; "a"; "b"] = Ul ["a"; "b"] ∧
  renderErrorMessages ["only"] = Inline (Some "only").
Proof.
  split_and!.
  - apply Set_of_deduplicate.
  - apply NoDup_first_seen.
  - intros m. unfold deduplicate. rewrite elem_of_first_seen, elem_of_nil. tauto.
  - unfold renderErrorMessages. rewrite Set_of_deduplicate.
    destruct messages as [|m0 l]; [done|].
    unfold deduplicate. simpl.
    destruct (first_seen [m0] l) as [|m1 u]; [done|]. done.
  - by vm_compute.
  - by vm_compute.
Qed.

(** ** Step 0: the dotted keys *)

Lemma member_field_of errors name :
  errors ≠ VUndefined → errors ≠ VNull →
  member errors name = Normal (field_of errors name).
Proof. by destruct errors. Qed.

Lemma member_opt_field_of v name : member_opt v name = Normal (field_of v name).
Proof. by destruct v. Qed.

(** [Object.entries(section || {})] never throws. *)
Lemma entries_or_empty section :
  entries (js_or section (VObj [])) = Normal (child_entries section).
Proof.
  unfold js_or, child_entries.
  destruct section as [| |[]|n|s| |]; simpl; try done.
  - by destruct (n =? 0)%Z.
  - by destruct (String.eqb s "").
Qed.

Lemma step0_dotted_entries errors :
  errors ≠ VUndefined → errors ≠ VNull →
  step0 errors = Normal (fromEntries (dotted_entries errors)).
Proof.
  intros Hu Hn. unfold step0, dotted_entries.
  rewrite !member_field_of by done. simpl.
  rewrite member_opt_field_of. simpl.
  rewrite !entries_or_empty. simpl.
  set (pids := field_of errors "pids").
  unfold js_or. destruct (truthy pids) eqn:Ht; simpl; [|done].
  by destruct (_isObject pids).
Qed.

Lemma elem_of_collapse key section (es : list (string * value)) :
  key ∈ (collapse section es).*1 ↔ ∃ c, key = section +:+ c ∧ c ∈ es.*1.
Proof.
  unfold collapse. rewrite <- list_fmap_compose.
  rewrite !list_elem_of_fmap. split.
  - intros ([c x] & -> & Hin). exists c. split; [done|].
    apply list_elem_of_fmap. by exists (c, x).
  - intros (c & -> & Hin). apply list_elem_of_fmap in Hin as ([c' x] & -> & Hin).
    by exists (c', x).
Qed.

(** The dotted keys of a document. *)
Lemma elem_of_dotted_keys errors key :
  key ∈ (dotted_entries errors).*1 ↔
    (∃ c, key = "metadata." +:+ c ∧ c ∈ child_keys (field_of errors "metadata"))
  ∨ (∃ c, key = "files." +:+ c ∧ c ∈ child_keys (field_of errors "files"))
  ∨ (∃ c, key = "access.embargo." +:+ c ∧
          c ∈ child_keys (field_of (field_of errors "access") "embargo"))
  ∨ (∃ c, key = "pids." +:+ c ∧ _isObject (field_of errors "pids") = true ∧
          c ∈ child_keys (field_of errors "pids"))
  ∨ (key = "pids" ∧ truthy (field_of errors "pids") = true ∧
     _isObject (field_of errors "pids") = false).
Proof.
  unfold dotted_entries. rewrite !fmap_app, !elem_of_app, !elem_of_collapse.
  set (pids := field_of errors "pids"). unfold child_keys.
  destruct (truthy pids) eqn:Ht, (_isObject pids) eqn:Ho; simpl;
    rewrite ?elem_of_collapse, ?list_elem_of_singleton; try naive_solver.
  (* a falsy value that is no object has no children *)
  unfold child_entries. rewrite Ht. simpl.
  split; [|naive_solver].
  intros [?|[?|[?|(c & _ & Hc)]]]; [naive_solver..|].
  by apply elem_of_nil in Hc.
Qed.

Lemma obj_get_pids_whole errors :
  truthy (field_of errors "pids") = true →
  _isObject (field_of errors "pids") = false →
  obj_get "pids" (fromEntries (dotted_entries errors))
  = Some (field_of errors "pids").
Proof.
  intros Ht Ho. rewrite obj_get_fromEntries. unfold dotted_entries.
  rewrite Ht, Ho. simpl. rewrite !reverse_app, reverse_singleton.
  rewrite !obj_get_app. done.
Qed.

Ltac other_section :=
  match goal with
  | H : _ +:+ _ = _ +:+ _ |- _ => simpl in H; discriminate H
  | H : _ +:+ _ = "pids" |- _ => simpl in H; discriminate H
  | H : "pids" = _ +:+ _ |- _ => simpl in H; discriminate H
  end.

(** C4, as amended: [toLabelledErrorMessages] collapses the sections
    metadata, files, access.embargo and pids, and no other, into dotted keys
    made of the section name and the key of an immediate child; a section
    that is absent from the document gives no key; a [pids] value that is
    truthy and no object (a non-empty string, say) is kept whole under the
    single key [pids], while an array is an object for lodash and is
    expanded by index, and a falsy value counts as absent.  With the
    default labels, the document whose [pids] is "Invalid DOI" yields the
    single label PIDS with that message. *)
Theorem toLabelledErrorMessages_dotted_keys
    (leafTraverse : value → list string)
    (Hleaf : ∀ s, leafTraverse (VStr s) = [s])
    (doc : list (string * value)) :
  let errors := VObj doc in
  let pids := field_of errors "pids" in
  ∃ s0, step0 errors = Normal s0 ∧
    (∀ key, key ∈ keys s0 ↔
         (∃ c, key = "metadata." +:+ c ∧
               c ∈ child_keys (field_of errors "metadata"))
       ∨ (∃ c, key = "files." +:+ c ∧ c ∈ child_keys (field_of errors "files"))
       ∨ (∃ c, key = "access.embargo." +:+ c ∧
               c ∈ child_keys (field_of (field_of errors "access") "embargo"))
       ∨ (∃ c, key = "pids." +:+ c ∧ _isObject pids = true ∧
               c ∈ child_keys pids)
       ∨ (key = "pids" ∧ truthy pids = true ∧ _isObject pids = false)) ∧
    (∀ c, obj_get "metadata" doc = None → ("metadata." +:+ c) ∉ keys s0) ∧
    (∀ c, obj_get "files" doc = None → ("files." +:+ c) ∉ keys s0) ∧
    (∀ c, obj_get "access" doc = None → ("access.embargo." +:+ c) ∉ keys s0) ∧
    (obj_get "pids" doc = None →
       ("pids" ∉ keys s0) ∧ ∀ c, ("pids." +:+ c) ∉ keys s0) ∧
    (truthy pids = true → _isObject pids = false →
       obj_get "pids" s0 = Some pids ∧ ∀ c, ("pids." +:+ c) ∉ keys s0) ∧
    (truthy pids = false → ("pids" ∉ keys s0) ∧ ∀ c, ("pids." +:+ c) ∉ keys s0) ∧
    toLabelledErrorMessages leafTraverse defaultLabels
      (VObj [("pids", VStr "Invalid DOI")])
    = Normal [("PIDS", ["Invalid DOI"])].
Proof.
  intros errors pids. exists (fromEntries (dotted_entries errors)).
  assert (∀ key, key ∈ keys (fromEntries (dotted_entries errors)) ↔
                 key ∈ (dotted_entries errors).*1) as Hkeys
    by (intros; apply elem_of_keys_fromEntries).
  split; [by apply step0_dotted_entries|].
  split; [intros key; rewrite Hkeys; apply elem_of_dotted_keys|].
  split_and!.
  - intros c Habs. rewrite Hkeys, elem_of_dotted_keys.
    unfold errors. simpl. rewrite Habs. simpl.
    intros [(c' & ? & Hc)|[(?&?&?)|[(?&?&?)|[(?&?&?)|(?&?)]]]];
      try other_section.
    by apply elem_of_nil in Hc.
  - intros c Habs. rewrite Hkeys, elem_of_dotted_keys.
    unfold errors. simpl. rewrite Habs. simpl.
    intros [(?&?&?)|[(c' & ? & Hc)|[(?&?&?)|[(?&?&?)|(?&?)]]]];
      try other_section.
    by apply elem_of_nil in Hc.
  - intros c Habs. rewrite Hkeys, elem_of_dotted_keys.
    unfold errors. simpl. rewrite Habs. simpl.
    intros [(?&?&?)|[(?&?&?)|[(c' & ? & Hc)|[(?&?&?)|(?&?)]]]];
      try other_section.
    by apply elem_of_nil in Hc.
  - intros Habs. assert (pids = VUndefined) as Hp
      by (unfold pids, errors; simpl; by rewrite Habs).
    split; [|intros c]; rewrite Hkeys, elem_of_dotted_keys; fold pids;
      rewrite Hp;
      intros [(?&?&?)|[(?&?&?)|[(?&?&?)|[(?&?&?&?)|(?&?&?)]]]];
      try other_section; done.
  - intros Ht Ho. split; [by apply obj_get_pids_whole|].
    intros c. rewrite Hkeys, elem_of_dotted_keys. fold pids.
    intros [(?&?&?)|[(?&?&?)|[(?&?&?)|[(?&?&?&?)|(?&?&?)]]]];
      try other_section. congruence.
  - intros Ht. split; [|intros c]; rewrite Hkeys, elem_of_dotted_keys;
      fold pids;
      intros [(?&?&?)|[(?&?&?)|[(?&?&?)|[(?&?&?&Hc)|(?&?&?)]]]];
      try other_section; try congruence.
    unfold child_keys, child_entries in Hc. rewrite Ht in Hc.
    by apply elem_of_nil in Hc.
  - transitivity (step2 defaultLabels [("pids", leafTraverse (VStr "Invalid DOI"))]).
    + reflexivity.
    + rewrite Hleaf. by vm_compute.
Qed.

Lemma toLabelledErrorMessages_dotted_keys_witness :
  (∀ s, flattenErrors (VStr s) = [s]) ∧
  ∃ s0, step0 (VObj [("pids", VStr "Invalid DOI")]) = Normal s0 ∧
        obj_get "pids" s0 = Some (VStr "Invalid DOI").
Proof.
  split; [done|].
  destruct (toLabelledErrorMessages_dotted_keys flattenErrors (λ s, eq_refl)
              [("pids", VStr "Invalid DOI")])
    as (s0 & Hs0 & _ & _ & _ & _ & _ & Hpids & _).
  exists s0. split; [done|]. by apply Hpids.
Defined.

(** C4 as it is stated fails on a [pids] value that is no keyed mapping but
    is an array (it is expanded by index, so that its messages go under the
    fallback label) or is falsy (the empty string is taken as absent). *)
Lemma pids_not_kept_whole :
  step0 (VObj [("pids", VArr [VStr "Invalid DOI"])])
    = Normal [("pids.0", VStr "Invalid DOI")] ∧
  toLabelledErrorMessages flattenErrors defaultLabels
    (VObj [("pids", VArr [VStr "Invalid DOI"])])
    = Normal [("Unknown field", ["Invalid DOI"])] ∧
  step0 (VObj [("pids", VStr "")]) = Normal [] ∧
  ¬ pids_kept_whole_when_not_a_mapping.
Proof.
  split_and!; [by vm_compute..|].
  intros Hclaim.
  destruct (Hclaim [("pids", VArr [VStr "Invalid DOI"])]
              (VArr [VStr "Invalid DOI"]) eq_refl eq_refl)
    as (s0 & Hs0 & Hget).
  vm_compute in Hs0. by injection Hs0 as <-.
Qed.

(** ** Step 1: the messages of each dotted key *)

Lemma dotted_keys_not_indices errors :
  Forall (λ k, array_index k = None) (dotted_entries errors).*1.
Proof.
  apply Forall_forall. intros key.
  rewrite elem_of_dotted_keys.
  intros [(?&->&?)|[(?&->&?)|[(?&->&?)|[(?&->&?)|(->&?)]]]]; reflexivity.
Qed.

Lemma keys_fmap_values {A B} (g : A → B) (o : list (string * A)) :
  ((λ e, (e.1, g e.2)) <$> o).*1 = o.*1.
Proof. rewrite <- list_fmap_compose. by apply list_fmap_ext. Qed.

(** Step 1 keeps the keys of step 0, in their order. *)
Lemma step1_step0 leafTraverse errors s0 :
  errors ≠ VUndefined → errors ≠ VNull →
  step0 errors = Normal s0 →
  step1 leafTraverse errors = Normal ((λ e, (e.1, leafTraverse e.2)) <$> s0).
Proof.
  intros Hu Hn Hs0. unfold step1. rewrite Hs0. simpl. f_equal.
  rewrite step0_dotted_entries in Hs0 by done. injection Hs0 as <-.
  apply fromEntries_id; rewrite keys_fmap_values.
  - apply (NoDup_keys_fromEntries (dotted_entries errors)).
  - apply Forall_forall. intros key Hkey.
    apply (proj1 (elem_of_keys_fromEntries key (dotted_entries errors))) in Hkey.
    by apply (proj1 (Forall_forall _ _) (dotted_keys_not_indices errors)).
Qed.

(** A dotted key never names a member that an object inherits, so that
    [this.labels[key]] reads an own property of the label table or nothing. *)
Lemma dotted_keys_own errors key :
  key ∈ (dotted_entries errors).*1 → key ∉ Object_prototype_members.
Proof.
  rewrite elem_of_dotted_keys.
  intros [(?&->&?)|[(?&->&?)|[(?&->&?)|[(?&->&?)|(->&?)]]]] Hin;
    repeat (apply elem_of_cons in Hin as [Hin|Hin];
            [simpl in Hin; discriminate Hin|]);
    by apply elem_of_nil in Hin.
Qed.

(** ** Step 2: the grouping by label *)

Lemma label_of_absent labels key :
  labels !! key = None → label_of labels key = "Unknown field".
Proof. unfold label_of. by intros ->. Qed.

Lemma label_of_present labels key l :
  labels !! key = Some l → l ≠ "" → label_of labels key = l.
Proof.
  unfold label_of. intros -> Hl. rewrite eqb_decide.
  by rewrite bool_decide_eq_false_2.
Qed.

Lemma label_of_empty labels key :
  labels !! key = Some "" → label_of labels key = "Unknown field".
Proof. unfold label_of. by intros ->. Qed.

Lemma label_of_own labels key :
  own_labels labels → label_of labels key ∉ Object_prototype_members.
Proof.
  intros Hown. unfold label_of.
  destruct (labels !! key) as [l|] eqn:Hl.
  - destruct (String.eqb l ""); [|by apply (Hown key)].
    apply (bool_decide_unpack _). by vm_compute.
  - apply (bool_decide_unpack _). by vm_compute.
Qed.

Section grouping.
Context (labels : gmap string string) (s1 : list (string * list string)).
Hypothesis Hown : own_labels labels.

Lemma group_own acc key :
  group labels s1 acc key =
  Normal (obj_set (label_of labels key)
            (default [] (obj_get (label_of labels key) acc) ++ messages_of s1 key)
            acc).
Proof.
  unfold group. destruct (obj_get (label_of labels key) acc); [done|].
  rewrite bool_decide_eq_false_2; [done|]. by apply label_of_own.
Qed.

Lemma step2_fold ks acc :
  ∃ R,
    fold_left (λ acc key, l ← acc; group labels s1 l key) ks (Normal acc)
    = Normal R ∧
    ∀ L, obj_get L R =
         after s1 (obj_get L acc) (filter (λ k, label_of labels k = L) ks).
Proof.
  revert acc. induction ks as [|key ks IH]; intros acc.
  - exists acc. split; [done|]. intros L. rewrite filter_nil.
    unfold after. destruct (obj_get L acc); [|done].
    simpl. by rewrite app_nil_r.
  - simpl fold_left.
    change (Normal acc ≫= λ l, group labels s1 l key)
      with (group labels s1 acc key).
    rewrite group_own.
    destruct (IH (obj_set (label_of labels key)
                    (default [] (obj_get (label_of labels key) acc)
                     ++ messages_of s1 key) acc)) as (R & HR & Hget).
    exists R. split; [done|]. intros L. rewrite Hget, obj_get_set.
    rewrite filter_cons. destruct (decide (L = label_of labels key)) as [->|Hne].
    + rewrite decide_True by done. unfold after.
      destruct (filter _ ks) as [|k' ks'].
      * simpl. rewrite !app_nil_r.
        by destruct (obj_get (label_of labels key) acc).
      * rewrite !fmap_cons. simpl. rewrite <- !app_assoc.
        by destruct (obj_get (label_of labels key) acc).
    + by rewrite decide_False by done.
Qed.

Lemma messages_of_entries (es : list (string * list string)) L :
  NoDup (keys s1) → es ⊆ s1 →
  concat (messages_of s1 <$> filter (λ k, label_of labels k = L) es.*1)
  = concat (filter (λ e, label_of labels e.1 = L) es).*2.
Proof.
  intros Hnd. induction es as [|[k ms] es IH]; intros Hsub; [done|].
  rewrite fmap_cons, !filter_cons. simpl.
  assert (es ⊆ s1) as Hes by (intros e He; apply Hsub; by right).
  case_decide; [|by apply IH].
  rewrite !fmap_cons. simpl. rewrite IH by done. f_equal.
  unfold messages_of. rewrite (obj_get_NoDup k ms); [done..|].
  apply Hsub. left.
Qed.

Lemma filter_keys_nil (es : list (string * list string)) L :
  filter (λ k, label_of labels k = L) es.*1 = [] ↔
  filter (λ e, label_of labels e.1 = L) es = [].
Proof.
  induction es as [|[k ms] es IH]; [done|].
  rewrite fmap_cons, !filter_cons. simpl. by case_decide.
Qed.

(** Step 2 gives each label the messages of its keys, in key order. *)
Lemma step2_merged :
  NoDup (keys s1) →
  ∃ R, step2 labels s1 = Normal R ∧ ∀ L, obj_get L R = merged labels L s1.
Proof.
  intros Hnd. destruct (step2_fold (keys s1) []) as (R & HR & Hget).
  exists R. split; [done|]. intros L. rewrite Hget. simpl.
  unfold after, merged, labelled_as.
  pose proof (filter_keys_nil s1 L) as Hnil.
  pose proof (messages_of_entries s1 L Hnd (λ e He, He)) as Hms.
  unfold keys. destruct (filter _ s1.*1) as [|k ks].
  - by rewrite (proj1 Hnil eq_refl).
  - destruct (filter _ s1) as [|e es].
    + discriminate (proj2 Hnil eq_refl).
    + by rewrite Hms.
Qed.
End grouping.

Lemma elem_of_concat {A} (x : A) (ls : list (list A)) :
  x ∈ concat ls ↔ ∃ l, l ∈ ls ∧ x ∈ l.
Proof.
  induction ls as [|l ls IH]; simpl.
  - rewrite elem_of_nil. split; [done|]. intros (l & Hl & _).
    by apply elem_of_nil in Hl.
  - rewrite elem_of_app, IH. split.
    + intros [?|(l' & ? & ?)]; [exists l|exists l']; split; try done;
        [left|by right].
    + intros (l' & [->|?]%elem_of_cons & ?); [by left|right; eauto].
Qed.

Lemma merged_keeps labels s1 key ms m :
  (key, ms) ∈ s1 → m ∈ ms →
  ∃ all, merged labels (label_of labels key) s1 = Some all ∧ m ∈ all.
Proof.
  intros Hin Hm. unfold merged.
  assert ((key, ms) ∈ labelled_as labels (label_of labels key) s1) as Hl
    by (by apply list_elem_of_filter).
  destruct (labelled_as _ _ s1) as [|e es] eqn:Hes.
  - by apply elem_of_nil in Hl.
  - eexists. split; [done|]. apply elem_of_concat. exists ms. split; [|done].
    apply list_elem_of_fmap. by exists (key, ms).
Qed.

(** The labelled messages of a document: total, and grouped by label. *)
Lemma toLabelledErrorMessages_merged leafTraverse labels errors :
  own_labels labels → errors ≠ VUndefined → errors ≠ VNull →
  ∃ s0 R,
    step0 errors = Normal s0 ∧
    step1 leafTraverse errors = Normal ((λ e, (e.1, leafTraverse e.2)) <$> s0) ∧
    toLabelledErrorMessages leafTraverse labels errors = Normal R ∧
    ∀ L, obj_get L R = merged labels L ((λ e, (e.1, leafTraverse e.2)) <$> s0).
Proof.
  intros Hown Hu Hn. exists (fromEntries (dotted_entries errors)).
  assert (step0 errors = Normal (fromEntries (dotted_entries errors)))
    as Hs0 by (by apply step0_dotted_entries).
  pose proof (step1_step0 leafTraverse errors _ Hu Hn Hs0) as Hs1.
  set (s1 := (λ e, (e.1, leafTraverse e.2)) <$> fromEntries _) in *.
  assert (NoDup (keys s1)) as Hnd.
  { unfold keys, s1. rewrite keys_fmap_values.
    apply (NoDup_keys_fromEntries (dotted_entries errors)). }
  destruct (step2_merged labels s1 Hown Hnd) as (R & HR & Hget).
  exists R. split; [done|]. split; [done|].
  split; [unfold toLabelledErrorMessages; by rewrite Hs1|]. done.
Qed.

(** C5, as amended: for a label table none of whose labels names a member
    of [Object.prototype], every dotted key goes under the label that the
    table gives it, and under "Unknown field" when the table has no entry
    for it or has the empty string; no message is dropped; the keys that
    share a label have their message sequences concatenated, in the order
    in which the keys are met, under that one label.  The title and the
    additional titles merge under "Title" when the table gives both that
    label. *)
Theorem toLabelledErrorMessages_grouped
    (leafTraverse : value → list string) (labels : gmap string string)
    (Hown : own_labels labels) (doc : list (string * value)) :
  ∃ s0 R,
    step0 (VObj doc) = Normal s0 ∧
    let s1 := (λ e, (e.1, leafTraverse e.2)) <$> s0 in
    step1 leafTraverse (VObj doc) = Normal s1 ∧
    toLabelledErrorMessages leafTraverse labels (VObj doc) = Normal R ∧
    (∀ L, obj_get L R = merged labels L s1) ∧
    (∀ key ms m, (key, ms) ∈ s1 → m ∈ ms →
       ∃ all, obj_get (label_of labels key) R = Some all ∧ m ∈ all) ∧
    (∀ key, labels !! key = None → label_of labels key = "Unknown field") ∧
    (∀ key l, labels !! key = Some l → l ≠ "" → label_of labels key = l) ∧
    (∀ key, labels !! key = Some "" → label_of labels key = "Unknown field") ∧
    toLabelledErrorMessages flattenErrors
      (<["metadata.additional_titles" := "Title"]> defaultLabels) two_titles
    = Normal [("Title", ["x"; "y"])].
Proof.
  destruct (toLabelledErrorMessages_merged leafTraverse labels (VObj doc) Hown)
    as (s0 & R & Hs0 & Hs1 & HR & Hget); [done..|].
  exists s0, R. split; [done|]. simpl. split; [done|]. split; [done|].
  split; [done|]. split_and!.
  - intros key ms m Hin Hm. rewrite Hget. by eapply merged_keeps.
  - apply label_of_absent.
  - apply label_of_present.
  - apply label_of_empty.
  - by vm_compute.
Qed.

Lemma defaultLabels_own : own_labels defaultLabels.
Proof.
  intros key l Hl. apply (bool_decide_unpack _).
  assert (l ∈ (map_to_list defaultLabels).*2) as Hin.
  { apply list_elem_of_fmap. exists (key, l).
    split; [done|]. by apply elem_of_map_to_list. }
  revert Hin. generalize l. apply Forall_forall.
  apply (bool_decide_unpack _). by vm_compute.
Qed.

Lemma toLabelledErrorMessages_grouped_witness :
  own_labels defaultLabels ∧
  ∃ R, toLabelledErrorMessages flattenErrors defaultLabels two_titles = Normal R ∧
       obj_get "Title" R = Some ["x"] ∧
       obj_get "Additional titles" R = Some ["y"].
Proof.
  split; [apply defaultLabels_own|].
  destruct (toLabelledErrorMessages_grouped flattenErrors defaultLabels
              defaultLabels_own
              [("metadata",
                VObj [("title", VArr [VStr "x"]);
                      ("additional_titles", VArr [VStr "y"])])])
    as (s0 & R & Hs0 & _ & HR & Hget & _).
  exists R. split; [done|].
  vm_compute in Hs0. injection Hs0 as <-.
  rewrite !Hget. by vm_compute.
Defined.

Example title_is_required :
  toLabelledErrorMessages flattenErrors defaultLabels
    (VObj [("metadata", VObj [("title", VArr [VStr "Title is required"])])])
  = Normal [("Title", ["Title is required"])].
Proof. by vm_compute. Qed.

(** C5 as it is stated fails: with the default labels the title and the
    additional titles have two labels and are not merged; a key whose label
    is the empty string goes under the fallback label although the table
    has an entry for it; and a label that names an inherited member of the
    object makes the grouping throw. *)
Lemma titles_not_merged :
  toLabelledErrorMessages flattenErrors defaultLabels two_titles
    = Normal [("Title", ["x"]); ("Additional titles", ["y"])] ∧
  toLabelledErrorMessages flattenErrors
    (<["metadata.title" := ""]> defaultLabels) two_titles
    = Normal [("Unknown field", ["x"]); ("Additional titles", ["y"])] ∧
  toLabelledErrorMessages flattenErrors
    (<["metadata.title" := "constructor"]> defaultLabels) two_titles
    = TypeError.
Proof. split_and!; by vm_compute. Qed.

(** ** render *)

Lemma js_or_object v : js_or v (VObj []) ≠ VUndefined ∧ js_or v (VObj []) ≠ VNull.
Proof. unfold js_or. destruct v; simpl; try done; by case_match. Qed.

Lemma labels_own props_labels :
  own_labels props_labels →
  own_labels (DisconnectedFormFeedback_labels props_labels).
Proof.
  intros Hown. apply map_Forall_union_2; [done|apply defaultLabels_own].
Qed.

Lemma ACTIONS_with_feedback a :
  a ∈ with_feedback ↔ is_Some (ACTIONS a).
Proof.
  split.
  - intros Ha. by repeat (apply elem_of_cons in Ha as [->|Ha]; [by eexists|]);
      apply elem_of_nil in Ha.
  - intros [x Hx]. destruct a; try discriminate Hx;
      apply (bool_decide_unpack _); by vm_compute.
Qed.

Lemma ACTIONS_message a feedback message :
  ACTIONS a = Some (feedback, message) →
  String.eqb message "" = false ∧
  feedback ∈ ["positive"; "warning"; "negative"].
Proof.
  intros Ha. destruct a; try discriminate Ha; injection Ha as <- <-;
    (split; [by vm_compute|apply (bool_decide_unpack _); by vm_compute]).
Qed.

(** C8, as amended: on every state of the store, the feedback component
    (with labels that name no member of [Object.prototype]) renders without
    a throw.  It renders nothing when there is no action state and when the
    action state has no entry in [ACTIONS], as the started states and the
    PID successes; for each of the eleven states that have an entry it
    renders the message of the entry, which is never empty, together with
    the list of labelled errors exactly when there is a labelled error. *)
Theorem FormFeedback_render
    (leafTraverse : value → list string) (props_labels : gmap string string)
    (Hown : own_labels props_labels) (state : DepositState) :
  let labels := DisconnectedFormFeedback_labels props_labels in
  ∃ labelledMessages out,
    toLabelledErrorMessages leafTraverse labels
      (js_or (errors state) (VObj [])) = Normal labelledMessages ∧
    FormFeedback leafTraverse props_labels state = Normal out ∧
    (actionState state = None → out = None) ∧
    (∀ a, actionState state = Some a → a ∉ with_feedback → out = None) ∧
    (∀ a, actionState state = Some a → a ∈ with_feedback →
       ∃ feedback message,
         ACTIONS a = Some (feedback, message) ∧ message ≠ "" ∧
         out = Some {|
           positive := String.eqb feedback "positive";
           warning := String.eqb feedback "warning";
           negative := String.eqb feedback "negative";
           strong := message;
           Message_List :=
             match labelledMessages with
             | [] => None
             | _ => Some ((λ e, (e.1, renderErrorMessages e.2))
                            <$> labelledMessages)
             end |}).
Proof.
  intros labels.
  destruct (js_or_object (errors state)) as [Hu Hn].
  destruct (toLabelledErrorMessages_merged leafTraverse labels
              (js_or (errors state) (VObj [])) (labels_own _ Hown) Hu Hn)
    as (s0 & lm & _ & _ & Hlm & _).
  exists lm. unfold FormFeedback, mapStateToProps, render. simpl.
  fold labels. rewrite Hlm.
  destruct (actionState state) as [a|] eqn:Hstate; simpl.
  - destruct (ACTIONS a) as [[feedback message]|] eqn:Ha.
    + destruct (ACTIONS_message a feedback message Ha) as [Hmsg Hkind].
      rewrite Hmsg. simpl. eexists. split; [done|]. split; [done|].
      split; [done|]. split.
      * intros a' [= <-] Hnot. destruct Hnot.
        apply ACTIONS_with_feedback. by eexists.
      * intros a' [= <-] _. exists feedback, message. split; [done|].
        split; [by intros ->|]. by destruct lm.
    + eexists. split; [done|]. split; [done|]. split; [done|]. split; [done|].
      intros a' [= <-] Hin. apply ACTIONS_with_feedback in Hin as [? Hin].
      congruence.
  - eexists. split; [done|]. split; [done|]. split; [done|]. split; [done|].
    done.
Qed.

Lemma FormFeedback_render_witness :
  own_labels (∅ : gmap string string) ∧
  FormFeedback flattenErrors ∅ save_started = Normal None.
Proof.
  assert (own_labels (∅ : gmap string string)) as Hown
    by apply map_Forall_empty.
  split; [done|].
  destruct (FormFeedback_render flattenErrors ∅ Hown save_started)
    as (lm & out & _ & Hout & _ & Hnone & _).
  rewrite Hout. f_equal. apply (Hnone DRAFT_SAVE_STARTED eq_refl).
  apply (bool_decide_unpack _). by vm_compute.
Defined.

(** C8 as it is stated fails on an action state that is active and has no
    message: while a save is in progress, and after a PID has been
    reserved, nothing is rendered.  And a component that was given a label
    that names an inherited member of the object throws when an error goes
    under that label. *)
Lemma active_state_without_message :
  FormFeedback flattenErrors ∅ save_started = Normal None ∧
  FormFeedback flattenErrors ∅
    {| record := a_record; community := no_community;
       actionState := Some RESERVE_PID_SUCCEEDED; errors := VUndefined |}
  = Normal None ∧
  FormFeedback flattenErrors {["metadata.title" := "constructor"]}
    {| record := a_record; community := no_community;
       actionState := Some DRAFT_SAVE_FAILED; errors := two_titles |}
  = TypeError.
Proof. split_and!; by vm_compute. Qed.

(** ** The draft lifecycle *)

Ltac run_promise :=
  unfold save, publish, submitReview, preview, delete_, reservePID,
    discardPID, _saveDraft, saveDraftWithUrlUpdate, changeURLAfterCreation,
    selected_uuid, try_catch, throw, await, dispatch, emit, getState,
    mbind, mret, Promise_bind, Promise_ret;
  simpl.

Ltac answer H := rewrite H; simpl.

Ltac new_events :=
  simpl; rewrite <- ?app_assoc; simpl; reflexivity.

Section lifecycle_facts.
Context {Rejection : Type} (rejection_errors : Rejection → value).
Context {Backend : Type}.
Context (reducer : DepositState → Action → DepositState).
Implicit Types (config : @DraftsService Rejection Backend)
  (w : @World Backend) (draft : Draft).

Lemma hasAlreadyId_absent draft :
  draft_id draft = None → hasAlreadyId draft = false.
Proof. unfold hasAlreadyId. by intros ->. Qed.

Lemma hasAlreadyId_present draft id :
  draft_id draft = Some id → id ≠ "" → hasAlreadyId draft = true.
Proof.
  unfold hasAlreadyId. intros -> Hid. rewrite eqb_decide.
  by rewrite bool_decide_eq_false_2.
Qed.

(** C9: when the backend save resolves, [saveDraftWithUrlUpdate] returns
    the response as it is, makes no other backend call, and replaces the
    address with [data.links.self_html] of the response if and only if
    the draft had no id before the call ([draft.id ? true : false] is
    false: the id is absent, or empty); a draft that has an id leaves the
    address as it is. *)
Theorem saveDraftWithUrlUpdate_address config draft w response b :
  drafts_save config draft (backend w) = (Resolved response, b) →
  ∃ w' evs,
    saveDraftWithUrlUpdate draft config w = (Fulfilled response, w') ∧
    trace w' = trace w ++ evs ∧
    backend w' = b ∧ store w' = store w ∧
    called evs = [CSave draft] ∧
    (address_replaced evs ↔ hasAlreadyId draft = false) ∧
    (hasAlreadyId draft = false →
       evs = [Called (CSave draft);
              HistoryReplaceState (self_html (data_links (resp_data response)))]) ∧
    (hasAlreadyId draft = true → evs = [Called (CSave draft)]) ∧
    (draft_id draft = None → hasAlreadyId draft = false) ∧
    (∀ id, draft_id draft = Some id → id ≠ "" → hasAlreadyId draft = true).
Proof.
  intros Hsave. run_promise. answer Hsave.
  pose proof (hasAlreadyId_absent draft) as Habsent.
  pose proof (hasAlreadyId_present draft) as Hpresent.
  destruct (hasAlreadyId draft) eqn:Hid; simpl;
    eexists _, _; (split; [reflexivity|]); (split; [new_events|]);
    (split; [done|]); (split; [done|]); (split; [done|]); split_and!;
    try done.
  - split; [|done]. intros [url Hurl].
    apply list_elem_of_singleton in Hurl. discriminate Hurl.
  - split; [done|]. intros _. eexists. right. left.
Qed.

(** C1: when the backend save resolves with a response whose [errors] are
    not empty, [save] dispatches DRAFT_SAVE_STARTED and then exactly one
    DRAFT_HAS_VALIDATION_ERRORS with the data and the errors of the
    response, and nothing else; no DRAFT_SAVE_SUCCEEDED; the only backend
    call is the save, so that no review is created, updated or deleted and
    the draft is not read; and the promise rejects, with the response. *)
Theorem save_with_validation_errors config draft w response b :
  drafts_save config draft (backend w) = (Resolved response, b) →
  _isEmpty (resp_errors response) = false →
  ∃ w' evs,
    save rejection_errors reducer draft config w
      = (Threw (ThrownResponse response), w') ∧
    trace w' = trace w ++ evs ∧
    dispatched evs =
      [ {| type := DRAFT_SAVE_STARTED; payload := NoPayload |};
        {| type := DRAFT_HAS_VALIDATION_ERRORS;
           payload := PDataErrors (resp_data response) (resp_errors response) |} ] ∧
    dispatched_as DRAFT_HAS_VALIDATION_ERRORS evs =
      [PDataErrors (resp_data response) (resp_errors response)] ∧
    dispatched_as DRAFT_SAVE_SUCCEEDED evs = [] ∧
    called evs = [CSave draft] ∧
    review_calls evs = [].
Proof.
  intros Hsave Herrors. run_promise. answer Hsave.
  destruct (hasAlreadyId draft); simpl; answer Herrors;
    eexists _, _; (split; [reflexivity|]); (split; [new_events|]);
    by split_and!.
Qed.

(** C2: when the backend save rejects with an error, [save] dispatches,
    after DRAFT_SAVE_STARTED, exactly one DRAFT_SAVE_FAILED whose payload
    is the [errors] of that error, and no other action; the address is not
    replaced; and the promise rejects with the same error. *)
Theorem save_rejected config draft w error b :
  drafts_save config draft (backend w) = (Rejected error, b) →
  ∃ w',
    save rejection_errors reducer draft config w
      = (Threw (ThrownError error), w') ∧
    trace w' = trace w ++
      [ Dispatched {| type := DRAFT_SAVE_STARTED; payload := NoPayload |};
        Called (CSave draft);
        Dispatched {| type := DRAFT_SAVE_FAILED;
                      payload := PErrors (rejection_errors error) |} ] ∧
    backend w' = b.
Proof.
  intros Hsave. run_promise. answer Hsave.
  eexists. split; [reflexivity|]. split; [new_events|done].
Qed.

Ltac settle :=
  repeat match goal with
  | |- context [drafts_deleteReview ?c ?l ?b] =>
      destruct (drafts_deleteReview c l b) as [[?|?] ?] eqn:?; simpl
  | |- context [drafts_createOrUpdateReview ?c ?l ?u ?b] =>
      destruct (drafts_createOrUpdateReview c l u b) as [[?|?] ?] eqn:?; simpl
  | |- context [drafts_read ?c ?l ?b] =>
      destruct (drafts_read c l b) as [[?|?] ?] eqn:?; simpl
  | |- context [drafts_reservePID ?c ?l ?t ?b] =>
      destruct (drafts_reservePID c l t b) as [[?|?] ?] eqn:?; simpl
  | |- context [drafts_discardPID ?c ?l ?t ?b] =>
      destruct (drafts_discardPID c l t b) as [[?|?] ?] eqn:?; simpl
  | |- context [drafts_save ?c ?d ?b] =>
      destruct (drafts_save c d b) as [[?|?] ?] eqn:?; simpl
  end.

Ltac community_cases depositState :=
  unfold shouldDeleteReview, shouldUpdateReview, review_decision;
  destruct (community depositState) as [[?|] [] []]; simpl.

(** C3: when the backend save resolves without validation errors, the
    review reconciliation of [_saveDraft] follows the decision table: with
    a community selected for which the review is not, one
    createOrUpdateReview with the uuid of that community; else, with an
    inclusion request and no community selected, one deleteReview;
    otherwise no review call.  The calls never go beyond the save, that
    mutation and one read; and when the persist succeeds, the mutation has
    been followed by exactly one read of the draft and exactly one
    DRAFT_FETCHED with the data that was read, which is returned.  From the
    answers of the backend: without a mutation the saved response is
    returned as it is; a mutation that resolves is always followed by one
    read of the draft, made on the backend as the mutation left it, and when
    that read resolves its response is returned after one DRAFT_FETCHED
    with its data; a mutation or a read that rejects is thrown, with no
    DRAFT_FETCHED. *)
Theorem _saveDraft_review config draft depositState failType w saved b :
  drafts_save config draft (backend w) = (Resolved saved, b) →
  _isEmpty (resp_errors saved) = true →
  let links := data_links (resp_data saved) in
  let decision := review_decision (community depositState) in
  ∃ settled w' evs,
    _saveDraft rejection_errors reducer draft config depositState failType w
      = (settled, w') ∧
    trace w' = trace w ++ evs ∧
    filter (λ c, is_review_mutation c) (called evs)
      = review_mutation links decision ∧
    called evs `prefix_of`
      (CSave draft :: review_mutation links decision ++ refetch links decision) ∧
    (∀ response, settled = Fulfilled response →
       called evs =
         CSave draft :: review_mutation links decision ++ refetch links decision ∧
       dispatched evs = fetched decision response ∧
       match decision with
       | NoReviewAction => response = saved
       | _ => ∃ b1 b2, drafts_read config links b1 = (Resolved response, b2)
       end) ∧
    match mutation_answer config links decision b with
    | None =>
        settled = Fulfilled saved ∧ backend w' = b ∧
        called evs = [CSave draft] ∧ dispatched evs = []
    | Some (Rejected error, b1) =>
        settled = Threw (ThrownError error) ∧ backend w' = b1 ∧
        called evs = CSave draft :: review_mutation links decision ∧
        dispatched evs = []
    | Some (Resolved _, b1) =>
        called evs
          = CSave draft :: review_mutation links decision ++ [CRead links] ∧
        match drafts_read config links b1 with
        | (Resolved response, b2) =>
            settled = Fulfilled response ∧ backend w' = b2 ∧
            dispatched evs
              = [ {| type := DRAFT_FETCHED;
                     payload := PData (resp_data response) |} ]
        | (Rejected error, b2) =>
            settled = Threw (ThrownError error) ∧ backend w' = b2 ∧
            dispatched evs = []
        end
    end.
Proof.
  intros Hsave Hvalid links decision. subst links decision.
  run_promise. answer Hsave.
  destruct (hasAlreadyId draft); simpl; answer Hvalid;
    community_cases depositState; settle;
    eexists _, _, _; (split; [reflexivity|]); (split; [new_events|]);
    (split; [done|]); (split; [by eexists|]);
    (split; [intros response [= <-]; eauto|]);
    by split_and!.
Qed.

Ltac not_both :=
  let H1 := fresh in let H2 := fresh in
  intros [(? & H1) (? & ? & H2)];
  repeat (apply elem_of_cons in H1 as [H1|H1]; [try discriminate H1|]);
  try (by apply elem_of_nil in H1);
  repeat (apply elem_of_cons in H2 as [H2|H2]; [try discriminate H2|]);
  by apply elem_of_nil in H2.

(** C10: the condition to delete the review and the condition to create
    or update it exclude each other, and whatever the backend answers, one
    run of [_saveDraft] makes at most one review mutation, never both a
    deleteReview and a createOrUpdateReview, and at most one read, which
    comes only after a mutation. *)
Theorem review_mutation_exclusive config draft depositState failType w :
  shouldDeleteReview (community depositState)
    && shouldUpdateReview (community depositState) = false ∧
  ∃ settled w' evs,
    _saveDraft rejection_errors reducer draft config depositState failType w
      = (settled, w') ∧
    trace w' = trace w ++ evs ∧
    length (filter (λ c, is_review_mutation c) (called evs)) ≤ 1 ∧
    length (filter (λ c, is_read c) (called evs))
      ≤ length (filter (λ c, is_review_mutation c) (called evs)) ∧
    ¬ ((∃ links, CDeleteReview links ∈ called evs) ∧
       (∃ links communityUUID,
          CCreateOrUpdateReview links communityUUID ∈ called evs)).
Proof.
  split.
  - unfold shouldDeleteReview, shouldUpdateReview.
    destruct (community depositState) as [[?|] [] []]; done.
  - run_promise. settle;
      [destruct (hasAlreadyId draft); simpl;
       (destruct (_isEmpty (resp_errors _)); simpl;
        [community_cases depositState; settle|])|];
      eexists _, _, _; (split; [reflexivity|]); (split; [new_events|]);
      (split; [simpl; lia|]); (split; [simpl; lia|]); not_both.
Qed.

Ltac observed :=
  eexists _, _, _; (split; [reflexivity|]); (split; [new_events|]);
  (split; [done|]); (split; [done|]); (split; [done|]).

(** C7: [reservePID] and [discardPID] persist with
    [saveDraftWithUrlUpdate] alone.  Whatever the response of the save
    holds, they never dispatch DRAFT_HAS_VALIDATION_ERRORS and never call
    deleteReview, createOrUpdateReview or read.  When the save and the PID
    call resolve, exactly one RESERVE_PID_SUCCEEDED (DISCARD_PID_SUCCEEDED)
    is dispatched, with the data of the PID response; when either of them
    rejects, exactly one RESERVE_PID_FAILED (DISCARD_PID_FAILED) is
    dispatched, with the errors of the rejection, and the same error is
    thrown again. *)
Theorem pid_operations_narrow :
  pid_operation_contract (Backend:=Backend) rejection_errors
    RESERVE_PID_STARTED RESERVE_PID_SUCCEEDED RESERVE_PID_FAILED
    drafts_reservePID CReservePID (reservePID rejection_errors reducer) ∧
  pid_operation_contract (Backend:=Backend) rejection_errors
    DISCARD_PID_STARTED DISCARD_PID_SUCCEEDED DISCARD_PID_FAILED
    drafts_discardPID CDiscardPID (discardPID rejection_errors reducer).
Proof.
  split; intros config draft pidType w; run_promise.
  - destruct (drafts_save config draft (backend w)) as [[saved|error] b]
      eqn:Hsave; simpl.
    + (* the draft is saved: the address may change, then the PID call *)
      destruct (hasAlreadyId draft); simpl;
        destruct (drafts_reservePID config (data_links (resp_data saved))
                    pidType b) as [[response|error] b'] eqn:Hpid; simpl;
        observed.
      * by exists saved, b, response, b'.
      * exists error. split; [done|]. split; [right; by exists saved, b|done].
      * by exists saved, b, response, b'.
      * exists error. split; [done|]. split; [right; by exists saved, b|done].
    + (* the save is rejected: the PID call is not made *)
      observed. exists error. split; [done|]. split; [by left|done].
  - destruct (drafts_save config draft (backend w)) as [[saved|error] b]
      eqn:Hsave; simpl.
    + destruct (hasAlreadyId draft); simpl;
        destruct (drafts_discardPID config (data_links (resp_data saved))
                    pidType b) as [[response|error] b'] eqn:Hpid; simpl;
        observed.
      * by exists saved, b, response, b'.
      * exists error. split; [done|]. split; [right; by exists saved, b|done].
      * by exists saved, b, response, b'.
      * exists error. split; [done|]. split; [right; by exists saved, b|done].
    + observed. exists error. split; [done|]. split; [by left|done].
Qed.
End lifecycle_facts.

(** ** The lifecycle on the example backend *)

Lemma saveDraftWithUrlUpdate_address_witness :
  ∃ w',
    saveDraftWithUrlUpdate new_draft (answering (Resolved ok_response))
      initial_world = (Fulfilled ok_response, w') ∧
    trace w' = [Called (CSave new_draft);
                HistoryReplaceState "/uploads/abcde-12345"].
Proof.
  destruct (saveDraftWithUrlUpdate_address (answering (Resolved ok_response))
              new_draft initial_world ok_response 1 eq_refl)
    as (w' & evs & Hrun & Htrace & _ & _ & _ & _ & Hnew & _).
  exists w'. split; [done|]. rewrite Htrace. simpl. by apply Hnew.
Defined.

Lemma save_with_validation_errors_witness :
  _isEmpty (resp_errors invalid_response) = false ∧
  ∃ w',
    save errors_of latest_action new_draft
      (answering (Resolved invalid_response)) initial_world
    = (Threw (ThrownResponse invalid_response), w') ∧
    called (trace w') = [CSave new_draft].
Proof.
  split; [done|].
  destruct (save_with_validation_errors errors_of latest_action
              (answering (Resolved invalid_response)) new_draft initial_world
              invalid_response 1 eq_refl eq_refl)
    as (w' & evs & Hrun & Htrace & _ & _ & _ & Hcalled & _).
  exists w'. split; [done|]. by rewrite Htrace.
Defined.

Lemma save_rejected_witness :
  ∃ w',
    save errors_of latest_action new_draft (answering (Rejected server_error))
      initial_world
    = (Threw (ThrownError server_error), w') ∧
    dispatched_as DRAFT_SAVE_FAILED (trace w')
    = [PErrors (VObj [("message", VStr "Internal server error")])].
Proof.
  destruct (save_rejected errors_of latest_action
              (answering (Rejected server_error)) new_draft initial_world
              server_error 1 eq_refl)
    as (w' & Hrun & Htrace & _).
  exists w'. split; [done|]. by rewrite Htrace.
Defined.

Lemma _saveDraft_review_witness :
  _isEmpty (resp_errors ok_response) = true ∧
  ∃ w',
    _saveDraft errors_of latest_action new_draft
      (answering (Resolved ok_response)) community_selected DRAFT_SAVE_FAILED
      initial_world
    = (Fulfilled ok_response, w') ∧
    filter (λ c, is_review_mutation c) (called (trace w'))
    = [CCreateOrUpdateReview (data_links a_record)
         "c0ffee00-0000-4000-8000-000000000001"] ∧
    called (trace w')
    = [CSave new_draft;
       CCreateOrUpdateReview (data_links a_record)
         "c0ffee00-0000-4000-8000-000000000001";
       CRead (data_links a_record)] ∧
    dispatched (trace w')
    = [ {| type := DRAFT_FETCHED; payload := PData a_record |} ].
Proof.
  split; [done|].
  destruct (_saveDraft_review errors_of latest_action
              (answering (Resolved ok_response)) new_draft community_selected
              DRAFT_SAVE_FAILED initial_world ok_response 1 eq_refl eq_refl)
    as (settled & w' & evs & Hrun & Htrace & Hmutation & _ & _ & Hanswers).
  simpl in Hanswers. destruct Hanswers as (Hcalled & -> & _ & Hfetched).
  exists w'. split; [done|]. rewrite Htrace. by split_and!.
Defined.

(** * Further properties of FormFeedback.js *)

(** X1: the labels of the component are the default labels overridden by
    [props.labels], key by key; a key that [props.labels] gives the empty
    label goes under "Unknown field", and not under its default label. *)
Theorem labels_override (props_labels : gmap string string) (key : string) :
  label_of (DisconnectedFormFeedback_labels props_labels) key =
  match props_labels !! key with
  | Some l => if String.eqb l "" then "Unknown field" else l
  | None => label_of defaultLabels key
  end.
Proof.
  unfold label_of, DisconnectedFormFeedback_labels.
  rewrite lookup_union. destruct (props_labels !! key) as [l|] eqn:Hl.
  - by rewrite union_Some_l.
  - by rewrite (left_id_L None _).
Qed.

(** X2: the labelled messages depend on the document through [metadata],
    [files], [access.embargo] and [pids] only: two documents that agree on
    these four give the same result, so that the errors of every other
    section, and of [access] outside the embargo, are shown nowhere. *)
Theorem other_sections_ignored
    (leafTraverse : value → list string) (labels : gmap string string)
    (doc1 doc2 : list (string * value)) :
  field_of (VObj doc1) "metadata" = field_of (VObj doc2) "metadata" →
  field_of (VObj doc1) "files" = field_of (VObj doc2) "files" →
  field_of (field_of (VObj doc1) "access") "embargo"
    = field_of (field_of (VObj doc2) "access") "embargo" →
  field_of (VObj doc1) "pids" = field_of (VObj doc2) "pids" →
  toLabelledErrorMessages leafTraverse labels (VObj doc1)
  = toLabelledErrorMessages leafTraverse labels (VObj doc2).
Proof.
  intros Hm Hf Ha Hp. unfold toLabelledErrorMessages, step1.
  rewrite !step0_dotted_entries by done.
  unfold dotted_entries. by rewrite Hm, Hf, Ha, Hp.
Qed.

Lemma other_sections_ignored_witness :
  toLabelledErrorMessages flattenErrors defaultLabels (VObj title_and_other_errors)
  = Normal [("Title", ["Missing data for required field."])].
Proof.
  rewrite (other_sections_ignored flattenErrors defaultLabels
             title_and_other_errors title_error); by vm_compute.
Defined.

Lemma obj_get_collapse section c (es : list (string * value)) :
  obj_get (section +:+ c) (collapse section es) = obj_get c es.
Proof.
  induction es as [|[c' x] es IH]; [done|].
  unfold collapse in *. rewrite fmap_cons, !obj_get_cons, IH. simpl.
  destruct (decide (c = c')) as [->|Hne]; [by rewrite decide_True|].
  rewrite decide_False; [done|]. by intros ?%(inj (String.app section)).
Qed.

Lemma keys_collapse section (es : list (string * value)) :
  (collapse section es).*1 = String.append section <$> es.*1.
Proof. induction es as [|[c x] es IH]; [done|]. simpl. by f_equal. Qed.

Lemma obj_get_reverse {V} k (o : list (string * V)) :
  NoDup (keys o) → obj_get k (reverse o) = obj_get k o.
Proof.
  intros Hnd. destruct (obj_get k o) as [v|] eqn:Hk.
  - apply obj_get_NoDup.
    + unfold keys in *. by rewrite fmap_reverse, reverse_Permutation.
    + apply elem_of_reverse. clear Hnd.
      induction o as [|[k' v'] o IH]; [done|].
      rewrite obj_get_cons in Hk. case_decide; [|right; auto].
      injection Hk as ->. subst. left.
  - apply obj_get_None. apply obj_get_None in Hk.
    unfold keys in *. by rewrite fmap_reverse, elem_of_reverse.
Qed.

Lemma obj_get_absent_key {V} k (o : list (string * V)) :
  k ∉ keys o → obj_get k (reverse o) = None.
Proof.
  intros Hk. apply obj_get_None. unfold keys in *.
  by rewrite fmap_reverse, elem_of_reverse.
Qed.

Lemma obj_get_other_section key section (es : list (string * value)) :
  (∀ c', key ≠ section +:+ c') →
  obj_get key (reverse (collapse section es)) = None.
Proof.
  intros Hkey. apply obj_get_absent_key. unfold keys.
  rewrite elem_of_collapse. intros (c' & ? & _). by eapply Hkey.
Qed.

Ltac not_in_section section :=
  rewrite (obj_get_other_section _ section) by (intros ? ?; other_section).

(** X3: step 0 puts under a dotted key the value that the section has for
    the child (the sections are objects with distinct keys). *)
Theorem step0_child_values (doc : list (string * value)) (c : string) :
  let errors := VObj doc in
  let metadata := field_of errors "metadata" in
  let files := field_of errors "files" in
  let embargo := field_of (field_of errors "access") "embargo" in
  let pids := field_of errors "pids" in
  NoDup (child_keys metadata) → NoDup (child_keys files) →
  NoDup (child_keys embargo) → NoDup (child_keys pids) →
  ∃ s0, step0 errors = Normal s0 ∧
    obj_get ("metadata." +:+ c) s0 = obj_get c (child_entries metadata) ∧
    obj_get ("files." +:+ c) s0 = obj_get c (child_entries files) ∧
    obj_get ("access.embargo." +:+ c) s0 = obj_get c (child_entries embargo) ∧
    (_isObject pids = true →
       obj_get ("pids." +:+ c) s0 = obj_get c (child_entries pids)).
Proof.
  intros errors metadata files embargo pids Hm Hf He Hp.
  exists (fromEntries (dotted_entries errors)).
  split; [by apply step0_dotted_entries|].
  rewrite !obj_get_fromEntries. unfold dotted_entries.
  fold metadata files embargo pids.
  assert (∀ section v, NoDup (child_keys v) →
            obj_get (section +:+ c) (reverse (collapse section (child_entries v)))
            = obj_get c (child_entries v)) as Hsec.
  { intros section v Hv. rewrite obj_get_reverse, obj_get_collapse; [done|].
    unfold keys. rewrite keys_collapse.
    apply (NoDup_fmap_2 (String.append section)), Hv. }
  assert (∀ key (D : list (string * value)),
            obj_get key (reverse D) = None →
            obj_get key (reverse (collapse "metadata." (child_entries metadata) ++
                           collapse "files." (child_entries files) ++
                           collapse "access.embargo." (child_entries embargo) ++ D))
            = match obj_get key (reverse (collapse "access.embargo."
                                            (child_entries embargo))) with
              | Some x => Some x
              | None =>
                  match obj_get key (reverse (collapse "files."
                                                (child_entries files))) with
                  | Some x => Some x
                  | None => obj_get key (reverse (collapse "metadata."
                                                    (child_entries metadata)))
                  end
              end) as Hsplit.
  { intros key D HD. rewrite !reverse_app, !obj_get_app, HD.
    by destruct (obj_get key (reverse (collapse "access.embargo." _))). }
  assert (∀ key, (∀ c', key ≠ "pids." +:+ c') → key ≠ "pids" →
            obj_get key
              (reverse (if truthy pids && negb (_isObject pids)
                        then [("pids", pids)]
                        else collapse "pids." (child_entries pids))) = None)
    as Hpids.
  { intros key Hk1 Hk2. apply obj_get_absent_key. unfold keys.
    destruct (truthy pids && negb (_isObject pids)).
    - simpl. by rewrite list_elem_of_singleton.
    - rewrite elem_of_collapse. intros (c' & ? & _). by eapply Hk1. }
  split_and!.
  - rewrite Hsplit by (apply Hpids; [intros c' ?|intros ?]; other_section).
    not_in_section "access.embargo.". not_in_section "files.".
    by apply Hsec.
  - rewrite Hsplit by (apply Hpids; [intros c' ?|intros ?]; other_section).
    not_in_section "access.embargo.". not_in_section "metadata.".
    rewrite Hsec by done. by destruct (obj_get c (child_entries files)).
  - rewrite Hsplit by (apply Hpids; [intros c' ?|intros ?]; other_section).
    not_in_section "files.". not_in_section "metadata.".
    rewrite Hsec by done. by destruct (obj_get c (child_entries embargo)).
  - intros Hobj. rewrite Hobj, andb_false_r.
    rewrite !reverse_app, !obj_get_app.
    not_in_section "access.embargo.". not_in_section "files.".
    not_in_section "metadata.".
    rewrite Hsec by done. by destruct (obj_get c (child_entries pids)).
Qed.

Lemma step0_child_values_witness :
  ∃ s0, step0 (VObj title_and_other_errors) = Normal s0 ∧
        obj_get "metadata.title" s0
        = Some (VArr [VStr "Missing data for required field."]).
Proof.
  destruct (step0_child_values title_and_other_errors "title")
    as (s0 & Hs0 & Hm & _);
    [apply (bool_decide_unpack _); by vm_compute..|].
  exists s0. split; [done|]. etrans; [exact Hm|]. by vm_compute.
Defined.

Lemma step2_own_labels labels s1 ks acc :
  own_labels labels →
  fold_left (λ acc key, l ← acc; group labels s1 l key) ks (Normal acc)
  = Normal (fold_left (group_own_label labels s1) ks acc).
Proof.
  intros Hown. revert acc. induction ks as [|key ks IH]; intros acc; [done|].
  simpl fold_left.
  change (Normal acc ≫= λ l, group labels s1 l key)
    with (group labels s1 acc key).
  rewrite group_own by done. apply IH.
Qed.

Lemma NoDup_keys_grouped labels s1 ks acc :
  NoDup (keys acc) → NoDup (keys (fold_left (group_own_label labels s1) ks acc)).
Proof.
  revert acc. induction ks as [|key ks IH]; intros acc Hnd; [done|].
  simpl. apply IH. by apply NoDup_keys_set.
Qed.

Lemma concat_values_update k (ms new : list string) o :
  obj_get k o = Some ms →
  concat (obj_update k (ms ++ new) o).*2 ≡ₚ concat o.*2 ++ new.
Proof.
  induction o as [|[k1 v1] o IH]; [done|].
  rewrite obj_get_cons. simpl obj_update. rewrite eqb_decide.
  case_decide as Hk.
  - intros [= ->]. rewrite bool_decide_eq_true_2 by done. simpl.
    rewrite <- !app_assoc. f_equiv. apply Permutation_app_comm.
  - intros Hget. rewrite bool_decide_eq_false_2 by done. simpl.
    rewrite IH by done. by rewrite app_assoc.
Qed.

Lemma concat_values_insert_index n k (new : list string) o :
  concat (obj_insert_index n k new o).*2 ≡ₚ concat o.*2 ++ new.
Proof.
  induction o as [|[k1 v1] o IH]; simpl.
  - by rewrite app_nil_r.
  - destruct (array_index k1) as [n1|]; [destruct (n1 <? n)%N|]; simpl.
    + rewrite IH. by rewrite app_assoc.
    + apply (Permutation_app_comm new).
    + apply (Permutation_app_comm new).
Qed.

Lemma concat_values_set k (new : list string) o :
  concat (obj_set k (default [] (obj_get k o) ++ new) o).*2
  ≡ₚ concat o.*2 ++ new.
Proof.
  unfold obj_set. destruct (obj_get k o) as [ms|] eqn:Hk; simpl.
  - by apply concat_values_update.
  - destruct (array_index k).
    + apply concat_values_insert_index.
    + rewrite fmap_app, concat_app. simpl. by rewrite app_nil_r.
Qed.

Lemma concat_grouped labels s1 ks acc :
  concat (fold_left (group_own_label labels s1) ks acc).*2
  ≡ₚ concat acc.*2 ++ concat (messages_of s1 <$> ks).
Proof.
  revert acc. induction ks as [|key ks IH]; intros acc; simpl.
  - by rewrite app_nil_r.
  - rewrite IH. unfold group_own_label. rewrite concat_values_set.
    by rewrite app_assoc.
Qed.

Lemma messages_of_keys (s1 : list (string * list string)) :
  NoDup (keys s1) → messages_of s1 <$> keys s1 = s1.*2.
Proof.
  intros Hnd. unfold keys. rewrite <- list_fmap_compose.
  apply Forall_fmap_ext_1, Forall_forall. intros [k ms] Hin. simpl.
  unfold messages_of. by rewrite (obj_get_NoDup k ms).
Qed.

Lemma keys_grouped labels s1 ks acc :
  (∀ key, array_index (label_of labels key) = None) →
  keys (fold_left (group_own_label labels s1) ks acc)
  = keys acc ++ first_seen (keys acc) (label_of labels <$> ks).
Proof.
  intros Hnamed. revert acc.
  induction ks as [|key ks IH]; intros acc; simpl.
  - by rewrite app_nil_r.
  - rewrite IH. unfold group_own_label, obj_set.
    destruct (obj_get (label_of labels key) acc) as [ms|] eqn:Hget.
    + rewrite keys_update, bool_decide_eq_true_2; [done|].
      apply obj_get_is_Some. by eexists.
    + rewrite Hnamed. apply obj_get_None in Hget.
      rewrite bool_decide_eq_false_2 by done.
      unfold keys. rewrite fmap_app. simpl. by rewrite <- app_assoc.
Qed.

Lemma label_of_named labels key :
  named_labels labels → array_index (label_of labels key) = None.
Proof.
  intros Hnamed. unfold label_of.
  destruct (labels !! key) as [l|] eqn:Hl; [|done].
  destruct (String.eqb l ""); [done|]. by apply (Hnamed key).
Qed.

(** The result of [toLabelledErrorMessages] as the loop of step 2 builds
    it over the entries of step 1. *)
Lemma toLabelledErrorMessages_fold leafTraverse labels errors :
  own_labels labels → errors ≠ VUndefined → errors ≠ VNull →
  ∃ s0,
    step0 errors = Normal s0 ∧ NoDup (keys s0) ∧
    toLabelledErrorMessages leafTraverse labels errors =
    Normal (fold_left
              (group_own_label labels ((λ e, (e.1, leafTraverse e.2)) <$> s0))
              (keys s0) []).
Proof.
  intros Hown Hu Hn. exists (fromEntries (dotted_entries errors)).
  assert (step0 errors = Normal (fromEntries (dotted_entries errors)))
    as Hs0 by (by apply step0_dotted_entries).
  split; [done|]. split; [apply NoDup_keys_fromEntries|].
  unfold toLabelledErrorMessages.
  rewrite (step1_step0 leafTraverse errors _ Hu Hn Hs0). simpl.
  unfold step2. rewrite step2_own_labels by done.
  unfold keys. by rewrite keys_fmap_values.
Qed.

Lemma merged_is_Some labels L (s1 : list (string * list string)) :
  is_Some (merged labels L s1) ↔ ∃ key, key ∈ keys s1 ∧ label_of labels key = L.
Proof.
  unfold merged, labelled_as, keys. split.
  - intros Hsome. destruct (filter _ s1) as [|[k ms] es] eqn:Hes.
    + by destruct Hsome.
    + assert ((k, ms) ∈ filter (λ e, label_of labels e.1 = L) s1) as Hin
        by (rewrite Hes; left).
      apply list_elem_of_filter in Hin as [Hl Hin]. exists k. split; [|done].
      apply list_elem_of_fmap. by exists (k, ms).
  - intros (key & Hin & Hl). apply list_elem_of_fmap in Hin as ([k ms] & -> & Hin).
    assert ((k, ms) ∈ filter (λ e, label_of labels e.1 = L) s1) as Hf
      by (by apply list_elem_of_filter).
    destruct (filter _ s1); [by apply elem_of_nil in Hf|by eexists].
Qed.

Lemma labelled_labels_of leafTraverse labels errors :
  own_labels labels → errors ≠ VUndefined → errors ≠ VNull →
  ∃ s0 R,
    step0 errors = Normal s0 ∧
    toLabelledErrorMessages leafTraverse labels errors = Normal R ∧
    NoDup (keys R) ∧
    (∀ L, L ∈ keys R ↔ ∃ key, key ∈ keys s0 ∧ label_of labels key = L) ∧
    (R = [] ↔ s0 = []).
Proof.
  intros Hown Hu Hn.
  destruct (toLabelledErrorMessages_merged leafTraverse labels errors Hown)
    as (s0 & R & Hs0 & _ & HR & Hget); [done..|].
  destruct (toLabelledErrorMessages_fold leafTraverse labels errors Hown)
    as (s0' & Hs0' & Hnd & Hfold); [done..|].
  assert (s0' = s0) as -> by congruence.
  exists s0, R. split; [done|]. split; [done|].
  assert (∀ L, L ∈ keys R ↔ ∃ key, key ∈ keys s0 ∧ label_of labels key = L)
    as Hkeys.
  { intros L. rewrite <- obj_get_is_Some, Hget, merged_is_Some.
    unfold keys. by rewrite keys_fmap_values. }
  split_and!; [|done|].
  - rewrite HR in Hfold. injection Hfold as ->.
    apply NoDup_keys_grouped, NoDup_nil_2.
  - split.
    + intros ->. destruct s0 as [|[k x] s0]; [done|].
      assert (label_of labels k ∈ keys ([] : list (string * list string)))
        as Hin by (apply Hkeys; exists k; split; [left|done]).
      by apply elem_of_nil in Hin.
    + intros ->. rewrite HR in Hfold. by injection Hfold as ->.
Qed.

(** X4: in the result of [toLabelledErrorMessages] no label occurs twice,
    and the labels are exactly the labels of the dotted keys of the
    document: the result is empty only for a document without dotted key,
    and a dotted key opens its label even when no message is found under
    it. *)
Theorem labelled_labels
    (leafTraverse : value → list string) (labels : gmap string string)
    (Hown : own_labels labels) (doc : list (string * value)) :
  ∃ s0 R,
    step0 (VObj doc) = Normal s0 ∧
    toLabelledErrorMessages leafTraverse labels (VObj doc) = Normal R ∧
    NoDup (keys R) ∧
    (∀ L, L ∈ keys R ↔ ∃ key, key ∈ keys s0 ∧ label_of labels key = L) ∧
    (R = [] ↔ s0 = []).
Proof. by apply labelled_labels_of. Qed.

Lemma labelled_labels_witness :
  ∃ R, toLabelledErrorMessages flattenErrors defaultLabels
         (VObj [("metadata", VObj [("title", VArr [])])]) = Normal R ∧
       "Title" ∈ keys R.
Proof.
  destruct (labelled_labels flattenErrors defaultLabels defaultLabels_own
              [("metadata", VObj [("title", VArr [])])])
    as (s0 & R & Hs0 & HR & _ & Hkeys & _).
  exists R. split; [done|]. apply Hkeys. exists "metadata.title".
  vm_compute in Hs0. injection Hs0 as <-. split; [left|by vm_compute].
Defined.

(** X5: [toLabelledErrorMessages] neither drops nor repeats a message: the
    messages of all the labels together are the messages that
    [toErrorMessages] finds under the dotted keys, up to their order. *)
Theorem messages_conserved
    (leafTraverse : value → list string) (labels : gmap string string)
    (Hown : own_labels labels) (doc : list (string * value)) :
  ∃ s0 R,
    step0 (VObj doc) = Normal s0 ∧
    toLabelledErrorMessages leafTraverse labels (VObj doc) = Normal R ∧
    concat R.*2 ≡ₚ concat (toErrorMessages leafTraverse <$> s0.*2).
Proof.
  destruct (toLabelledErrorMessages_fold leafTraverse labels (VObj doc) Hown)
    as (s0 & Hs0 & Hnd & Hfold); [done..|].
  eexists s0, _. split; [done|]. split; [done|].
  rewrite concat_grouped. simpl.
  set (s1 := (λ e, (e.1, leafTraverse e.2)) <$> s0).
  assert (keys s0 = keys s1) as -> by (unfold keys, s1; by rewrite keys_fmap_values).
  rewrite messages_of_keys
    by (unfold keys, s1 in *; by rewrite keys_fmap_values).
  unfold s1. by rewrite <- !list_fmap_compose.
Qed.

Lemma messages_conserved_witness :
  ∃ R, toLabelledErrorMessages flattenErrors defaultLabels two_titles = Normal R ∧
       concat R.*2 ≡ₚ ["x"; "y"].
Proof.
  destruct (messages_conserved flattenErrors defaultLabels defaultLabels_own
              [("metadata",
                VObj [("title", VArr [VStr "x"]);
                      ("additional_titles", VArr [VStr "y"])])])
    as (s0 & R & Hs0 & HR & Hperm).
  exists R. split; [done|]. rewrite Hperm.
  vm_compute in Hs0. by injection Hs0 as <-.
Defined.

(** X6: when no label of the table is an array index, the labels of the
    result come in the order in which the dotted keys first reach them. *)
Theorem labels_in_first_seen_order
    (leafTraverse : value → list string) (labels : gmap string string)
    (Hown : own_labels labels) (Hnamed : named_labels labels)
    (doc : list (string * value)) :
  ∃ s0 R,
    step0 (VObj doc) = Normal s0 ∧
    toLabelledErrorMessages leafTraverse labels (VObj doc) = Normal R ∧
    keys R = deduplicate (label_of labels <$> keys s0).
Proof.
  destruct (toLabelledErrorMessages_fold leafTraverse labels (VObj doc) Hown)
    as (s0 & Hs0 & Hnd & Hfold); [done..|].
  eexists s0, _. split; [done|]. split; [done|].
  rewrite keys_grouped; [done|]. intros key. by apply label_of_named.
Qed.

Lemma defaultLabels_named : named_labels defaultLabels.
Proof.
  intros key l Hl.
  assert (l ∈ (map_to_list defaultLabels).*2) as Hin.
  { apply list_elem_of_fmap. exists (key, l).
    split; [done|]. by apply elem_of_map_to_list. }
  revert Hin. generalize l. apply Forall_forall.
  apply (bool_decide_unpack _). by vm_compute.
Qed.

Lemma labels_in_first_seen_order_witness :
  ∃ R, toLabelledErrorMessages flattenErrors defaultLabels two_titles = Normal R ∧
       keys R = ["Title"; "Additional titles"].
Proof.
  destruct (labels_in_first_seen_order flattenErrors defaultLabels
              defaultLabels_own defaultLabels_named
              [("metadata",
                VObj [("title", VArr [VStr "x"]);
                      ("additional_titles", VArr [VStr "y"])])])
    as (s0 & R & Hs0 & HR & Hkeys).
  exists R. split; [done|]. rewrite Hkeys.
  vm_compute in Hs0. injection Hs0 as <-. by vm_compute.
Defined.

Example index_label_comes_first :
  keys <$> toLabelledErrorMessages flattenErrors
             (<["metadata.additional_titles" := "2024"]> defaultLabels) two_titles
  = Normal ["2024"; "Title"].
Proof. by vm_compute. Qed.

(** X7: what [render] shows has exactly one of the flags positive, warning
    and negative: positive only after DRAFT_SAVE_SUCCEEDED, warning only
    after DRAFT_HAS_VALIDATION_ERRORS, negative for the failures; and its
    text is the message that [ACTIONS] has for the action state. *)
Theorem render_feedback_flags
    (leafTraverse : value → list string) (props_labels : gmap string string)
    (state : DepositState) (m : MessageElement) :
  FormFeedback leafTraverse props_labels state = Normal (Some m) →
  Nat.b2n (positive m) + Nat.b2n (warning m) + Nat.b2n (negative m) = 1 ∧
  (positive m = true ↔ actionState state = Some DRAFT_SAVE_SUCCEEDED) ∧
  (warning m = true ↔ actionState state = Some DRAFT_HAS_VALIDATION_ERRORS) ∧
  ∃ a feedback,
    actionState state = Some a ∧ ACTIONS a = Some (feedback, strong m).
Proof.
  unfold FormFeedback, mapStateToProps, render. simpl.
  destruct (actionState state) as [a|]; [|discriminate]. simpl.
  destruct (ACTIONS a) as [[feedback message]|] eqn:Ha; [|discriminate].
  destruct (ACTIONS_message a feedback message Ha) as [-> _].
  destruct (toLabelledErrorMessages _ _ _) as [lm|]; [|discriminate].
  simpl. intros [= <-]. simpl.
  destruct a; try discriminate Ha; injection Ha as <- <-;
    (split; [done|]); (split; [split; (done || by intros [=])|]);
    (split; [split; (done || by intros [=])|]); by eexists _, _.
Qed.

Lemma render_feedback_flags_witness :
  ∃ m, FormFeedback flattenErrors ∅ save_with_errors = Normal (Some m) ∧
       warning m = true ∧ positive m = false ∧ negative m = false.
Proof.
  destruct (FormFeedback flattenErrors ∅ save_with_errors) as [[m|]|] eqn:Hm;
    try (by vm_compute in Hm).
  exists m. split; [done|].
  destruct (render_feedback_flags flattenErrors ∅ save_with_errors m Hm)
    as (Hone & Hpositive & Hwarning & _).
  assert (warning m = true) as Hw by (by apply Hwarning).
  rewrite Hw in Hone. clear Hm Hpositive Hwarning. split; [done|].
  by destruct (positive m), (negative m).
Defined.

Lemma fromEntries_nil {V} (es : list (string * V)) :
  fromEntries es = [] ↔ es = [].
Proof.
  split; [|by intros ->].
  destruct es as [|[k v] es]; [done|]. intros Hnil.
  assert (k ∈ keys (fromEntries ((k, v) :: es))) as Hin
    by (apply elem_of_keys_fromEntries; left).
  rewrite Hnil in Hin. by apply elem_of_nil in Hin.
Qed.

(** X8: for an action state that has a message, [render] shows the list
    of errors exactly when the errors of the store have a dotted key, a
    child of one of the four sections: also when no message is found under
    the key, and then the label comes with an empty list.  The list has one
    item for each label. *)
Theorem error_list_shown
    (leafTraverse : value → list string) (props_labels : gmap string string)
    (Hown : own_labels props_labels) (state : DepositState) (a : ActionType) :
  actionState state = Some a → a ∈ with_feedback →
  ∃ m,
    FormFeedback leafTraverse props_labels state = Normal (Some m) ∧
    (Message_List m = None ↔
       dotted_entries (js_or (errors state) (VObj [])) = []) ∧
    (∀ items, Message_List m = Some items → NoDup items.*1 ∧ items ≠ []).
Proof.
  intros Hstate Ha.
  destruct (js_or_object (errors state)) as [Hu Hn].
  destruct (labelled_labels_of leafTraverse
              (DisconnectedFormFeedback_labels props_labels)
              (js_or (errors state) (VObj [])) (labels_own _ Hown) Hu Hn)
    as (s0 & R & Hs0 & HR & Hnd & _ & Hnil).
  rewrite step0_dotted_entries in Hs0 by done. injection Hs0 as <-.
  rewrite fromEntries_nil in Hnil.
  apply ACTIONS_with_feedback in Ha as [[feedback message] Ha].
  destruct (ACTIONS_message a feedback message Ha) as [Hmsg _].
  unfold FormFeedback, mapStateToProps, render. simpl.
  rewrite Hstate. simpl. rewrite Ha, Hmsg, HR. simpl.
  eexists. split; [done|]. simpl. destruct R as [|e R]; simpl.
  - split; [|done]. split; [intros _; by apply Hnil|done].
  - split.
    + split; [done|]. intros Hnone. by apply Hnil in Hnone.
    + intros items [= <-]. split; [|done].
      change (NoDup (((λ e, (e.1, renderErrorMessages e.2)) <$> e :: R).*1)).
      by rewrite keys_fmap_values.
Qed.

Lemma error_list_shown_witness :
  ∃ m, FormFeedback flattenErrors ∅ save_with_errors = Normal (Some m) ∧
       Message_List m = Some [("Title", Ul [])].
Proof.
  destruct (error_list_shown flattenErrors ∅ (map_Forall_empty _)
              save_with_errors DRAFT_HAS_VALIDATION_ERRORS eq_refl)
    as (m & Hm & _).
  - apply (bool_decide_unpack _). by vm_compute.
  - exists m. split; [done|]. vm_compute in Hm. by injection Hm as <-.
Defined.

(** * Further properties of deposit.js *)

Ltac answers :=
  repeat match goal with
  | |- context [drafts_save ?c ?d ?b] =>
      destruct (drafts_save c d b) as [[?|?] ?] eqn:?; simpl
  | |- context [drafts_deleteReview ?c ?l ?b] =>
      destruct (drafts_deleteReview c l b) as [[?|?] ?] eqn:?; simpl
  | |- context [drafts_createOrUpdateReview ?c ?l ?u ?b] =>
      destruct (drafts_createOrUpdateReview c l u b) as [[?|?] ?] eqn:?; simpl
  | |- context [drafts_read ?c ?l ?b] =>
      destruct (drafts_read c l b) as [[?|?] ?] eqn:?; simpl
  | |- context [drafts_publish ?c ?l ?b] =>
      destruct (drafts_publish c l b) as [[?|?] ?] eqn:?; simpl
  | |- context [drafts_submitReview ?c ?l ?b] =>
      destruct (drafts_submitReview c l b) as [[?|?] ?] eqn:?; simpl
  | |- context [drafts_delete ?c ?l ?b] =>
      destruct (drafts_delete c l b) as [[?|?] ?] eqn:?; simpl
  | |- context [drafts_reservePID ?c ?l ?t ?b] =>
      destruct (drafts_reservePID c l t b) as [[?|?] ?] eqn:?; simpl
  | |- context [drafts_discardPID ?c ?l ?t ?b] =>
      destruct (drafts_discardPID c l t b) as [[?|?] ?] eqn:?; simpl
  end.

(** Every way in which a run can go: the answers of the backend, whether
    the draft has an id, whether the response has validation errors, and the
    community state. *)
Ltac every_run :=
  run_promise; answers;
  repeat match goal with
  | |- context [hasAlreadyId ?d] => destruct (hasAlreadyId d); simpl
  | |- context [_isEmpty ?v] => destruct (_isEmpty v); simpl
  | |- context [community ?s] =>
      unfold shouldDeleteReview, shouldUpdateReview;
      destruct (community s) as [[?|] [] []]; simpl
  end;
  answers.

Ltac this_run :=
  eexists _, _, _; (split; [reflexivity|]); (split; [new_events|]).

Ltac each_thunk Hin :=
  repeat (apply elem_of_cons in Hin as [Hin|Hin];
          [injection Hin as -> -> ->|]);
  [..|by apply elem_of_nil in Hin].

Ltac member_of H :=
  simpl in H;
  repeat (apply elem_of_cons in H as [H|H]; [try subst|]);
  try (by apply elem_of_nil in H).

Section thunk_facts.
Context {Rejection : Type} (rejection_errors : Rejection → value).
Context {Backend : Type}.
Context (reducer : DepositState → Action → DepositState).
Implicit Types (config : @DraftsService Rejection Backend)
  (w : @World Backend) (draft : Draft).

(** X9: [saveDraftWithUrlUpdate] never dispatches an action and leaves the
    store as it is; it calls the save once and nothing else; and when the
    save is rejected it throws that error without a change of address,
    while a save that resolves is never turned into a failure: its response
    is returned. *)
Theorem saveDraftWithUrlUpdate_silent config draft w :
  ∃ settled w' evs,
    saveDraftWithUrlUpdate draft config w = (settled, w') ∧
    trace w' = trace w ++ evs ∧
    store w' = store w ∧
    dispatched evs = [] ∧
    called evs = [CSave draft] ∧
    (∀ t, settled = Threw t →
       evs = [Called (CSave draft)] ∧
       ∃ error b,
         t = ThrownError error ∧
         drafts_save config draft (backend w) = (Rejected error, b)) ∧
    match drafts_save config draft (backend w) with
    | (Rejected error, b) =>
        settled = Threw (ThrownError error) ∧ backend w' = b ∧
        evs = [Called (CSave draft)] ∧ ¬ address_replaced evs
    | (Resolved response, b) =>
        settled = Fulfilled response ∧ backend w' = b
    end.
Proof.
  every_run; this_run; (split; [done|]); (split; [done|]); (split; [done|]);
    (split; [intros t [= <-]; eauto|]);
    split_and!; try done;
    intros [url Hurl]; apply list_elem_of_singleton in Hurl; discriminate Hurl.
Qed.

(** X10: no retry.  Every run of [save], [publish], [submitReview] and
    [preview], and of [reservePID] and [discardPID], starts its backend calls
    with the save of the draft and calls no method of the service twice;
    [delete_] calls [delete] and nothing else. *)
Theorem single_attempt :
  (∀ start failed op,
     (start, failed, op) ∈ persisting_thunks rejection_errors reducer →
     ∀ draft config w, ∃ settled w' evs,
       op draft config w = (settled, w') ∧ trace w' = trace w ++ evs ∧
       head (called evs) = Some (CSave draft) ∧
       NoDup (method <$> called evs)) ∧
  (∀ draft pidType config w, ∃ settled w' evs,
     reservePID rejection_errors reducer draft pidType config w = (settled, w') ∧
     trace w' = trace w ++ evs ∧
     head (called evs) = Some (CSave draft) ∧
     NoDup (method <$> called evs)) ∧
  (∀ draft pidType config w, ∃ settled w' evs,
     discardPID rejection_errors reducer draft pidType config w = (settled, w') ∧
     trace w' = trace w ++ evs ∧
     head (called evs) = Some (CSave draft) ∧
     NoDup (method <$> called evs)) ∧
  (∀ isDiscardingVersion config w, ∃ settled w' evs,
     delete_ rejection_errors reducer isDiscardingVersion config w
       = (settled, w') ∧
     trace w' = trace w ++ evs ∧
     method <$> called evs = [MDelete]).
Proof.
  split_and!.
  - intros start failed op Hin draft config w. each_thunk Hin;
      every_run; this_run; (split; [done|]);
      apply (bool_decide_unpack _); by vm_compute.
  - intros draft pidType config w. every_run; this_run; (split; [done|]);
      apply (bool_decide_unpack _); by vm_compute.
  - intros draft pidType config w. every_run; this_run; (split; [done|]);
      apply (bool_decide_unpack _); by vm_compute.
  - intros isDiscardingVersion config w. every_run; by this_run.
Qed.

Ltac of_this_run :=
  let p := fresh "p" in let Hp := fresh "Hp" in
  intros p Hp; member_of Hp; eauto 8.

(** X11: the order of the actions of a thunk that persists the draft.  Its
    START action comes first and once.  After it the thunk dispatches at
    most one of its FAILED action and DRAFT_HAS_VALIDATION_ERRORS, and none
    of them when it fulfils.  The FAILED action is the last event of the
    run and carries the [errors] of what the thunk throws;
    DRAFT_HAS_VALIDATION_ERRORS carries the data and the errors of the
    response that the thunk throws. *)
Theorem start_and_failure_actions start failed op :
  (start, failed, op) ∈ persisting_thunks rejection_errors reducer →
  ∀ draft config w, ∃ settled w' evs,
    op draft config w = (settled, w') ∧ trace w' = trace w ++ evs ∧
    head (dispatched evs) = Some (started start) ∧
    dispatched_as start evs = [NoPayload] ∧
    length (dispatched_as failed evs)
      + length (dispatched_as DRAFT_HAS_VALIDATION_ERRORS evs) ≤ 1 ∧
    (∀ x, settled = Fulfilled x →
       dispatched_as failed evs = [] ∧
       dispatched_as DRAFT_HAS_VALIDATION_ERRORS evs = []) ∧
    (∀ p, p ∈ dispatched_as failed evs →
       ∃ t, settled = Threw t ∧
            p = PErrors (thrown_errors rejection_errors t) ∧
            last evs = Some (Dispatched {| type := failed; payload := p |})) ∧
    (∀ p, p ∈ dispatched_as DRAFT_HAS_VALIDATION_ERRORS evs →
       ∃ response, settled = Threw (ThrownResponse response) ∧
                   p = PDataErrors (resp_data response) (resp_errors response)).
Proof.
  intros Hin draft config w. each_thunk Hin;
    every_run; this_run; (split; [done|]); (split; [done|]);
    (split; [simpl; lia|]); (split; [by intros x [=]|]);
    (split; of_this_run).
Qed.

Ltac of_navigation :=
  let ev := fresh "ev" in let Hev := fresh "Hev" in
  intros ev Hev; member_of Hev; done.

(** X12: a thunk leaves the page only when it has succeeded.  In every
    run of [save], [publish], [submitReview] and [preview] a navigation, if
    there is one, is the only one, is the last event, and the promise is
    fulfilled; [publish], [submitReview], [preview] and [delete_] navigate
    whenever they fulfil, and [save], [reservePID] and [discardPID] never
    do. *)
Theorem navigation_only_on_success :
  (∀ start failed op,
     (start, failed, op) ∈ persisting_thunks rejection_errors reducer →
     ∀ draft config w, ∃ settled w' evs,
       op draft config w = (settled, w') ∧ trace w' = trace w ++ evs ∧
       (∀ e, e ∈ navigations evs →
          settled = Fulfilled () ∧ navigations evs = [e] ∧ last evs = Some e) ∧
       (start ≠ DRAFT_SAVE_STARTED → settled = Fulfilled () →
        navigations evs ≠ []) ∧
       (start = DRAFT_SAVE_STARTED → navigations evs = [])) ∧
  (∀ isDiscardingVersion config w, ∃ settled w' evs,
     delete_ rejection_errors reducer isDiscardingVersion config w
       = (settled, w') ∧
     trace w' = trace w ++ evs ∧
     (∀ e, e ∈ navigations evs →
        settled = Fulfilled () ∧ navigations evs = [e] ∧ last evs = Some e) ∧
     (settled = Fulfilled () → navigations evs ≠ [])) ∧
  (∀ draft pidType config w, ∃ settled w' evs,
     reservePID rejection_errors reducer draft pidType config w = (settled, w') ∧
     trace w' = trace w ++ evs ∧ navigations evs = []) ∧
  (∀ draft pidType config w, ∃ settled w' evs,
     discardPID rejection_errors reducer draft pidType config w = (settled, w') ∧
     trace w' = trace w ++ evs ∧ navigations evs = []).
Proof.
  split_and!.
  - intros start failed op Hin draft config w. each_thunk Hin;
      every_run; this_run;
      (split; [of_navigation|]);
      (split; [by intros ? ?|]); by intros ?.
  - intros isDiscardingVersion config w. every_run; this_run;
      (split; [of_navigation|]); by intros ?.
  - intros draft pidType config w. every_run; by this_run.
  - intros draft pidType config w. every_run; by this_run.
Qed.

(** X13: [preview] goes to the record of the id that the draft of the
    form had when the thunk was called, whatever the backend answered: a
    draft that had no id yet is previewed at /records/undefined. *)
Theorem preview_address draft config w :
  ∃ settled w' evs,
    preview rejection_errors reducer draft config w = (settled, w') ∧
    trace w' = trace w ++ evs ∧
    (∀ e, e ∈ navigations evs → e = LocationAssign (preview_url draft)) ∧
    (settled = Fulfilled () →
       last evs = Some (LocationAssign (preview_url draft))) ∧
    (draft_id draft = None → preview_url draft = "/records/undefined?preview=1").
Proof.
  every_run; this_run;
    (split; [of_navigation|]);
    (split; [by intros ?|]); unfold preview_url; by intros ->.
Qed.

Ltac persisted Hsave Hvalid :=
  run_promise; rewrite Hsave; simpl;
  destruct (hasAlreadyId _); simpl; rewrite Hvalid; simpl.

Ltac review_answers :=
  repeat match goal with
  | |- context [drafts_deleteReview ?c ?l ?b] =>
      destruct (drafts_deleteReview c l b) as [[?|?] ?] eqn:?; simpl
  | |- context [drafts_createOrUpdateReview ?c ?l ?u ?b] =>
      destruct (drafts_createOrUpdateReview c l u b) as [[?|?] ?] eqn:?; simpl
  | |- context [drafts_read ?c ?l ?b] =>
      destruct (drafts_read c l b) as [[?|?] ?] eqn:?; simpl
  end.

Ltac reconciled Hanswer :=
  unfold reconciliation_answer, mutation_answer, community_at_start,
    review_decision, started in Hanswer |- *;
  revert Hanswer;
  unfold shouldDeleteReview, shouldUpdateReview;
  match goal with
  | |- context [community ?s] => destruct (community s) as [[?|] [] []]
  end; simpl; review_answers; intros Hanswer; simplify_eq; answers.

(** X14: validation errors stop every thunk that persists the draft, and
    not as a failure.  When the save resolves with a response whose errors
    are not empty, the thunk throws the response after START and one
    DRAFT_HAS_VALIDATION_ERRORS; its FAILED action is not dispatched, the
    save is the only backend call (nothing is published or submitted), and
    the page is not left. *)
Theorem validation_errors_stop_thunk start failed op :
  (start, failed, op) ∈ persisting_thunks rejection_errors reducer →
  ∀ draft config w response b,
    drafts_save config draft (backend w) = (Resolved response, b) →
    _isEmpty (resp_errors response) = false →
    ∃ w' evs,
      op draft config w = (Threw (ThrownResponse response), w') ∧
      trace w' = trace w ++ evs ∧
      dispatched evs =
        [ started start;
          {| type := DRAFT_HAS_VALIDATION_ERRORS;
             payload := PDataErrors (resp_data response) (resp_errors response) |} ] ∧
      dispatched_as failed evs = [] ∧
      called evs = [CSave draft] ∧
      navigations evs = [].
Proof.
  intros Hin draft config w response b Hsave Hvalid. each_thunk Hin;
    persisted Hsave Hvalid;
    eexists _, _; (split; [reflexivity|]); (split; [new_events|]);
    by split_and!.
Qed.

(** X15: a failure of the review reconciliation is reported to nobody but
    the caller.  When the save has resolved without validation errors and
    the review mutation, or the read that follows it, is rejected, the thunk
    throws that error, and START stays the only action that it has
    dispatched: no FAILED action, no DRAFT_FETCHED, no success.  The call of
    the thunk itself (publish, submitReview) is not made and the page is not
    left. *)
Theorem reconciliation_failure_unreported start failed op :
  (start, failed, op) ∈ persisting_thunks rejection_errors reducer →
  ∀ draft config w saved b error b1,
    drafts_save config draft (backend w) = (Resolved saved, b) →
    _isEmpty (resp_errors saved) = true →
    reconciliation_answer config saved
      (review_decision (community_at_start reducer start w)) b
      = (Rejected error, b1) →
    ∃ w' evs,
      op draft config w = (Threw (ThrownError error), w') ∧
      trace w' = trace w ++ evs ∧
      backend w' = b1 ∧
      dispatched evs = [started start] ∧
      Forall (λ c, method c ∈ [MSave; MCreateOrUpdateReview; MDeleteReview; MRead])
        (called evs) ∧
      navigations evs = [].
Proof.
  intros Hin draft config w saved b error b1 Hsave Hvalid Hanswer.
  each_thunk Hin; persisted Hsave Hvalid; reconciled Hanswer;
    eexists _, _; (split; [reflexivity|]); (split; [new_events|]);
    (split; [done|]); (split; [done|]); (split; [|done]);
    simpl; apply Forall_forall; intros c' Hc'; member_of Hc';
    simpl; apply (bool_decide_unpack _); exact I.
Qed.

(** X16: a successful [save] reports the draft as the backend has it after
    the review reconciliation.  When the save resolves without validation
    errors and the reconciliation resolves with a response (that of the save
    when there is nothing to reconcile, that of the read otherwise), [save]
    fulfils, and after START and, if the draft was read again,
    DRAFT_FETCHED, its last action is one DRAFT_SAVE_SUCCEEDED with the data
    of that response. *)
Theorem save_succeeded draft config w saved b response b1 :
  drafts_save config draft (backend w) = (Resolved saved, b) →
  _isEmpty (resp_errors saved) = true →
  let decision := review_decision (community_at_start reducer DRAFT_SAVE_STARTED w) in
  let links := data_links (resp_data saved) in
  reconciliation_answer config saved decision b = (Resolved response, b1) →
  ∃ w' evs,
    save rejection_errors reducer draft config w = (Fulfilled (), w') ∧
    trace w' = trace w ++ evs ∧
    backend w' = b1 ∧
    called evs = CSave draft :: review_mutation links decision ++ refetch links decision ∧
    dispatched evs =
      started DRAFT_SAVE_STARTED :: fetched decision response ++
      [{| type := DRAFT_SAVE_SUCCEEDED; payload := PData (resp_data response) |}] ∧
    last evs = Some (Dispatched {| type := DRAFT_SAVE_SUCCEEDED;
                                   payload := PData (resp_data response) |}).
Proof.
  intros Hsave Hvalid decision links Hanswer. subst decision links.
  persisted Hsave Hvalid; reconciled Hanswer;
    eexists _, _; (split; [reflexivity|]); (split; [new_events|]);
    by split_and!.
Qed.

(** X17: [publish] and [submitReview] work on the draft as the
    reconciliation left it.  When the save resolves without validation
    errors and the reconciliation resolves with a response, the thunk makes
    its call with the links of that response (those of the draft that was
    read again, when a review was changed).  If the call resolves, the thunk
    fulfils without any further action and its last event is the
    replacement of the location, by the canonical address of the published
    record, or by /me/requests/ and the id of the request.  If the call is
    rejected, the thunk dispatches its FAILED action with the errors, throws
    the error, and stays on the page. *)
Theorem publish_and_submit_after_persist draft config w saved b response b1 :
  drafts_save config draft (backend w) = (Resolved saved, b) →
  _isEmpty (resp_errors saved) = true →
  let links := data_links (resp_data saved) in
  (let decision :=
     review_decision (community_at_start reducer DRAFT_PUBLISH_STARTED w) in
   reconciliation_answer config saved decision b = (Resolved response, b1) →
   ∃ settled w' evs,
     publish rejection_errors reducer draft config w = (settled, w') ∧
     trace w' = trace w ++ evs ∧
     called evs =
       CSave draft :: review_mutation links decision ++ refetch links decision
       ++ [CPublish (data_links (resp_data response))] ∧
     match drafts_publish config (data_links (resp_data response)) b1 with
     | (Resolved published, b2) =>
         settled = Fulfilled () ∧ backend w' = b2 ∧
         dispatched evs =
           started DRAFT_PUBLISH_STARTED :: fetched decision response ∧
         last evs =
           Some (LocationReplace (self_html (data_links (resp_data published))))
     | (Rejected error, b2) =>
         settled = Threw (ThrownError error) ∧ backend w' = b2 ∧
         dispatched evs =
           started DRAFT_PUBLISH_STARTED :: fetched decision response ++
           [{| type := DRAFT_PUBLISH_FAILED;
               payload := PErrors (rejection_errors error) |}] ∧
         navigations evs = []
     end) ∧
  (let decision :=
     review_decision (community_at_start reducer DRAFT_SUBMIT_REVIEW_STARTED w) in
   reconciliation_answer config saved decision b = (Resolved response, b1) →
   ∃ settled w' evs,
     submitReview rejection_errors reducer draft config w = (settled, w') ∧
     trace w' = trace w ++ evs ∧
     called evs =
       CSave draft :: review_mutation links decision ++ refetch links decision
       ++ [CSubmitReview (data_links (resp_data response))] ∧
     match drafts_submitReview config (data_links (resp_data response)) b1 with
     | (Resolved request, b2) =>
         settled = Fulfilled () ∧ backend w' = b2 ∧
         dispatched evs =
           started DRAFT_SUBMIT_REVIEW_STARTED :: fetched decision response ∧
         last evs =
           Some (LocationReplace ("/me/requests/" +:+ data_id (resp_data request)))
     | (Rejected error, b2) =>
         settled = Threw (ThrownError error) ∧ backend w' = b2 ∧
         dispatched evs =
           started DRAFT_SUBMIT_REVIEW_STARTED :: fetched decision response ++
           [{| type := DRAFT_SUBMIT_REVIEW_FAILED;
               payload := PErrors (rejection_errors error) |}] ∧
         navigations evs = []
     end).
Proof.
  intros Hsave Hvalid links. subst links.
  split; intros decision Hanswer; subst decision;
    persisted Hsave Hvalid; reconciled Hanswer;
    this_run; (split; [done|]); by split_and!.
Qed.

Ltac replaced_here :=
  match goal with
  | |- _ ↔ _ =>
      split;
      [ let url := fresh "url" in let H := fresh "H" in
        intros [url H];
        repeat (apply elem_of_cons in H as [H|H]; [try discriminate H|]);
        try (by apply elem_of_nil in H); eauto
      | let H := fresh "H" in
        intros [H ?]; try discriminate H;
        try (destruct_and?; naive_solver);
        eexists; do 2 right; left ]
  end.

(** X18: the address follows the creation of the draft, not the success
    of the thunk.  In every run of [save], [publish], [submitReview] and
    [preview] the address is replaced exactly when the draft had no id and
    the save resolved, whatever happens afterwards (validation errors, a
    rejected review, a rejected publish); and the new address is the
    canonical address of the response of the save. *)
Theorem address_follows_creation start failed op :
  (start, failed, op) ∈ persisting_thunks rejection_errors reducer →
  ∀ draft config w, ∃ settled w' evs,
    op draft config w = (settled, w') ∧ trace w' = trace w ++ evs ∧
    (address_replaced evs ↔
       hasAlreadyId draft = false ∧
       ∃ saved b, drafts_save config draft (backend w) = (Resolved saved, b)) ∧
    (∀ url, HistoryReplaceState url ∈ evs →
       ∃ saved b,
         drafts_save config draft (backend w) = (Resolved saved, b) ∧
         url = self_html (data_links (resp_data saved))).
Proof.
  intros Hin draft config w. each_thunk Hin;
    every_run; this_run;
    (split; [replaced_here|]);
    (let url := fresh "url" in let H := fresh "H" in
     intros url H;
     repeat (apply elem_of_cons in H as [H|H]; [try discriminate H|]);
     try (by apply elem_of_nil in H);
     injection H as ->; eauto).
Qed.
End thunk_facts.

(** ** The further properties on the example backend *)

Lemma saveDraftWithUrlUpdate_silent_witness :
  ∃ w',
    saveDraftWithUrlUpdate new_draft (answering (Rejected server_error))
      initial_world = (Threw (ThrownError server_error), w') ∧
    trace w' = [Called (CSave new_draft)].
Proof.
  destruct (saveDraftWithUrlUpdate_silent (answering (Rejected server_error))
              new_draft initial_world)
    as (settled & w' & evs & Hrun & Htrace & _ & _ & _ & _ & Hanswer).
  simpl in Hanswer. destruct Hanswer as (-> & _ & -> & _).
  exists w'. split; [done|]. by rewrite Htrace.
Defined.

Lemma single_attempt_witness :
  ∃ settled w' evs,
    publish errors_of latest_action new_draft (answering (Resolved ok_response))
      initial_world = (settled, w') ∧
    trace w' = trace initial_world ++ evs ∧
    head (called evs) = Some (CSave new_draft) ∧
    NoDup (method <$> called evs).
Proof.
  apply (proj1 (single_attempt errors_of latest_action)
           DRAFT_PUBLISH_STARTED DRAFT_PUBLISH_FAILED).
  right; left.
Defined.

Lemma start_and_failure_actions_witness :
  ∃ settled w' evs,
    submitReview errors_of latest_action new_draft
      (answering (Rejected server_error)) initial_world = (settled, w') ∧
    trace w' = trace initial_world ++ evs ∧
    head (dispatched evs) = Some (started DRAFT_SUBMIT_REVIEW_STARTED) ∧
    dispatched_as DRAFT_SUBMIT_REVIEW_STARTED evs = [NoPayload].
Proof.
  destruct (start_and_failure_actions errors_of latest_action
              DRAFT_SUBMIT_REVIEW_STARTED DRAFT_SUBMIT_REVIEW_FAILED _
              ltac:(right; right; left) new_draft
              (answering (Rejected server_error)) initial_world)
    as (settled & w' & evs & Hrun & Htrace & Hhead & Hstart & _).
  by exists settled, w', evs.
Defined.

Lemma navigation_only_on_success_witness :
  ∃ settled w' evs,
    publish errors_of latest_action new_draft (answering (Resolved ok_response))
      initial_world = (settled, w') ∧
    trace w' = trace initial_world ++ evs ∧
    (settled = Fulfilled () → navigations evs ≠ []).
Proof.
  destruct (proj1 (navigation_only_on_success errors_of latest_action)
              DRAFT_PUBLISH_STARTED DRAFT_PUBLISH_FAILED _
              ltac:(right; left) new_draft
              (answering (Resolved ok_response)) initial_world)
    as (settled & w' & evs & Hrun & Htrace & _ & Hnav & _).
  exists settled, w', evs. split; [done|]. split; [done|].
  by apply Hnav.
Defined.

Lemma preview_address_witness :
  ∃ w',
    preview errors_of latest_action new_draft (answering (Resolved ok_response))
      initial_world = (Fulfilled (), w') ∧
    last (trace w') = Some (LocationAssign "/records/undefined?preview=1").
Proof.
  destruct (preview_address errors_of latest_action new_draft
              (answering (Resolved ok_response)) initial_world)
    as (settled & w' & evs & Hrun & Htrace & _ & Hlast & Hnew).
  pose proof Hrun as Hrun'. vm_compute in Hrun'. injection Hrun' as <- _.
  exists w'. split; [done|]. rewrite Htrace. simpl.
  rewrite (Hlast eq_refl). by rewrite (Hnew eq_refl).
Defined.

Lemma validation_errors_stop_thunk_witness :
  ∃ w',
    publish errors_of latest_action new_draft
      (answering (Resolved invalid_response)) initial_world
    = (Threw (ThrownResponse invalid_response), w') ∧
    called (trace w') = [CSave new_draft].
Proof.
  destruct (validation_errors_stop_thunk errors_of latest_action
              DRAFT_PUBLISH_STARTED DRAFT_PUBLISH_FAILED _
              ltac:(right; left) new_draft
              (answering (Resolved invalid_response)) initial_world
              invalid_response 1 eq_refl eq_refl)
    as (w' & evs & Hrun & Htrace & _ & _ & Hcalled & _).
  exists w'. split; [done|]. by rewrite Htrace.
Defined.

Lemma reconciliation_failure_unreported_witness :
  ∃ w',
    save errors_of latest_action new_draft review_rejecting initial_world
    = (Threw (ThrownError server_error), w') ∧
    dispatched (trace w') = [started DRAFT_SAVE_STARTED].
Proof.
  destruct (reconciliation_failure_unreported errors_of latest_action
              DRAFT_SAVE_STARTED DRAFT_SAVE_FAILED _
              ltac:(left) new_draft review_rejecting initial_world
              ok_response 1 server_error 2 eq_refl eq_refl eq_refl)
    as (w' & evs & Hrun & Htrace & _ & Hdispatched & _).
  exists w'. split; [done|]. by rewrite Htrace.
Defined.

Lemma save_succeeded_witness :
  ∃ w',
    save errors_of latest_action new_draft (answering (Resolved ok_response))
      initial_world = (Fulfilled (), w') ∧
    last (trace w') =
      Some (Dispatched {| type := DRAFT_SAVE_SUCCEEDED;
                          payload := PData a_record |}).
Proof.
  destruct (save_succeeded errors_of latest_action new_draft
              (answering (Resolved ok_response)) initial_world
              ok_response 1 ok_response 3 eq_refl eq_refl eq_refl)
    as (w' & evs & Hrun & Htrace & _ & _ & _ & Hlast).
  exists w'. split; [done|]. by rewrite Htrace.
Defined.

Lemma publish_and_submit_after_persist_witness :
  ∃ w',
    publish errors_of latest_action new_draft (answering (Resolved ok_response))
      initial_world = (Fulfilled (), w') ∧
    last (trace w') = Some (LocationReplace "/uploads/abcde-12345").
Proof.
  destruct (proj1 (publish_and_submit_after_persist errors_of latest_action
                     new_draft (answering (Resolved ok_response)) initial_world
                     ok_response 1 ok_response 3 eq_refl eq_refl) eq_refl)
    as (settled & w' & evs & Hrun & Htrace & _ & -> & _ & _ & Hlast).
  exists w'. split; [done|]. by rewrite Htrace.
Defined.

Lemma address_follows_creation_witness :
  ∃ settled w' evs,
    publish errors_of latest_action new_draft (answering (Resolved ok_response))
      initial_world = (settled, w') ∧
    trace w' = trace initial_world ++ evs ∧
    address_replaced evs.
Proof.
  destruct (address_follows_creation errors_of latest_action
              DRAFT_PUBLISH_STARTED DRAFT_PUBLISH_FAILED _
              ltac:(right; left) new_draft
              (answering (Resolved ok_response)) initial_world)
    as (settled & w' & evs & Hrun & Htrace & Hreplaced & _).
  exists settled, w', evs. split_and!; [done..|].
  apply Hreplaced. split; [reflexivity|]. by eexists _, _.
Defined.

(** * Further properties of CreatibutorsModal *)

Section suggestions.
Import CreatibutorsModal.

Lemma append_assoc (a b c : string) : (a +:+ b) +:+ c = a +:+ (b +:+ c).
Proof.
  induction a as [|x a IH]; [done|].
  change (String x ((a +:+ b) +:+ c) = String x (a +:+ (b +:+ c))).
  by f_equal.
Qed.

Lemma append_empty_r (a : string) : a +:+ "" = a.
Proof.
  induction a as [|x a IH]; [done|].
  change (String x (a +:+ "") = String x a). by f_equal.
Qed.

Lemma forEach_affiliation_joined affiliations : ∀ length idx aff_names,
  (idx + List.length affiliations = length)%nat →
  forEach_affiliation length idx affiliations aff_names
  = aff_names +:+ joined (affiliation_name <$> affiliations).
Proof.
  induction affiliations as [|affiliation rest IH]; intros len idx acc Hlen;
    simpl in *.
  - by rewrite append_empty_r.
  - destruct rest as [|next rest].
    + simpl in *. by replace (idx <? len - 1)%nat with false
        by (symmetry; apply Nat.ltb_ge; lia).
    + rewrite IH by (simpl in *; lia).
      replace (idx <? len - 1)%nat with true
        by (symmetry; apply Nat.ltb_lt; simpl in *; lia).
      by rewrite !append_assoc.
Qed.

Lemma find_orcid_Some creatibutor orcid :
  find_orcid creatibutor = Some orcid ↔
  ∃ before after,
    identifiers creatibutor = before ++ orcid :: after ∧
    scheme orcid = "orcid" ∧
    Forall (λ i, scheme i ≠ "orcid") before.
Proof.
  unfold find_orcid. split.
  - intros H. apply fmap_Some in H as [[n i] [H ->]]. simpl.
    apply list_find_Some in H as (Hn & Hi & Hbefore).
    apply list_elem_of_split_length in Hn as (before & after & Hids & ->).
    exists before, after. split_and!; [done..|].
    apply Forall_forall. intros j Hj.
    apply list_elem_of_lookup in Hj as [k Hk].
    apply (Hbefore k j); [|by apply lookup_lt_Some in Hk].
    rewrite Hids. by rewrite lookup_app_l by by apply lookup_lt_Some in Hk.
  - intros (before & after & Hids & Hi & Hbefore).
    apply fmap_Some. exists (length before, orcid). split; [|done].
    apply list_find_Some. split_and!; [|done|].
    + rewrite Hids. by apply list_lookup_middle.
    + intros k j Hk Hlt. rewrite Hids, lookup_app_l in Hk by done.
      rewrite Forall_forall in Hbefore. apply Hbefore.
      by apply list_elem_of_lookup_2 in Hk.
Qed.

Lemma find_orcid_None creatibutor :
  find_orcid creatibutor = None ↔ ¬ has_orcid creatibutor.
Proof.
  unfold find_orcid, has_orcid. rewrite fmap_None, list_find_None.
  rewrite Forall_forall. naive_solver.
Qed.

Lemma map_throwing_TypeError {A B} (f : A → completion B) l :
  map_throwing f l = TypeError ↔ ∃ x, x ∈ l ∧ f x = TypeError.
Proof.
  induction l as [|x l IH]; simpl.
  - split; [done|]. intros (? & H & _). by apply elem_of_nil in H.
  - destruct (f x) as [y|] eqn:Hx; simpl.
    + destruct (map_throwing f l) as [ys|]; simpl.
      * split; [done|]. intros (x' & [->|Hin]%elem_of_cons & Hx').
        -- congruence.
        -- assert (Normal ys = TypeError) by (apply IH; eauto). done.
      * split; [|done]. intros _.
        destruct (proj1 IH eq_refl) as (x' & Hin & Hx').
        exists x'. split; [by right|done].
    + split; [|done]. intros _. exists x. split; [by left|done].
Qed.

Lemma map_throwing_Normal {A B} (f : A → completion B) l ys :
  map_throwing f l = Normal ys ↔ Forall2 (λ x y, f x = Normal y) l ys.
Proof.
  revert ys. induction l as [|x l IH]; intros ys; simpl.
  - split; [by intros [= <-]|by intros ->%Forall2_nil_inv_l].
  - split.
    + destruct (f x) as [y|] eqn:Hx; simpl; [|done].
      destruct (map_throwing f l) as [ys'|]; simpl; [|done].
      intros [= <-]. constructor; [done|]. by apply IH.
    + intros (y & ys' & Hx & Hl & ->)%Forall2_cons_inv_l.
      rewrite Hx. simpl. apply IH in Hl. by rewrite Hl.
Qed.

(** X19: one result without an identifier of scheme "orcid" is enough for
    serializeSuggestions to throw a TypeError: no suggestion is given, not
    even for the other results, and nothing else makes it throw. *)
Theorem serializeSuggestions_throws autocompleteNames showPersonForm
    creatibutors :
  serializeSuggestions autocompleteNames showPersonForm creatibutors
    = TypeError
  ↔ ∃ creatibutor, creatibutor ∈ creatibutors ∧ ¬ has_orcid creatibutor.
Proof.
  unfold serializeSuggestions.
  destruct (map_throwing suggestion_of creatibutors) as [results|] eqn:Hmap;
    simpl.
  - split.
    + by destruct (_ && _).
    + intros (c & Hin & Hc). exfalso.
      apply map_throwing_Normal in Hmap.
      apply list_elem_of_lookup in Hin as [i Hi].
      destruct (Forall2_lookup_l _ _ _ _ _ Hmap Hi) as (s & _ & Hs).
      unfold suggestion_of in Hs.
      destruct (find_orcid c) eqn:Hfind; [|done].
      apply Hc. apply find_orcid_Some in Hfind as (b & a & Hids & ? & _).
      eexists. split; [|done]. rewrite Hids. set_solver.
  - split; [|done]. intros _.
    apply map_throwing_TypeError in Hmap as (c & Hin & Hc).
    exists c. split; [done|]. apply find_orcid_None.
    unfold suggestion_of in Hc. by destruct (find_orcid c).
Qed.

(** X20: when every result has an ORCID identifier, the suggestions are
    those of the results, in their order, and after them the manual entry,
    which is there exactly when the names are taken from the search only and
    the form of the person is not shown. *)
Theorem serializeSuggestions_results autocompleteNames showPersonForm
    creatibutors :
  Forall has_orcid creatibutors →
  ∃ results,
    serializeSuggestions autocompleteNames showPersonForm creatibutors
      = Normal results ∧
    extra <$> take (length creatibutors) results
      = OfCreatibutor <$> creatibutors ∧
    text <$> take (length creatibutors) results = name <$> creatibutors ∧
    key <$> take (length creatibutors) results = id <$> creatibutors ∧
    drop (length creatibutors) results
      = (if decide (autocompleteNames = SEARCH_ONLY ∧ showPersonForm = false)
         then [manual_entry] else []).
Proof.
  intros Hall.
  assert (∃ results, map_throwing suggestion_of creatibutors = Normal results)
    as [results Hmap].
  { destruct (map_throwing suggestion_of creatibutors) eqn:Hmap; [eauto|].
    apply map_throwing_TypeError in Hmap as (c & Hin & Hc).
    rewrite Forall_forall in Hall. apply Hall in Hin.
    unfold suggestion_of in Hc.
    destruct (find_orcid c) eqn:Hfind; [done|].
    by apply find_orcid_None in Hfind. }
  unfold serializeSuggestions. rewrite Hmap. simpl.
  apply map_throwing_Normal in Hmap.
  assert (extra <$> results = OfCreatibutor <$> creatibutors
          ∧ text <$> results = name <$> creatibutors
          ∧ key <$> results = id <$> creatibutors) as (Hextra & Htext & Hkey).
  { clear Hall. induction Hmap as [|c s cs ss Hs _ IH]; [done|].
    destruct IH as (? & ? & ?). unfold suggestion_of in Hs.
    destruct (find_orcid c); [|done]. injection Hs as <-. simpl.
    split_and!; by f_equal. }
  assert (length results = length creatibutors) as Hlen.
  { by rewrite <-(length_fmap extra), Hextra, length_fmap. }
  set (more := if decide (autocompleteNames = SEARCH_ONLY
                          ∧ showPersonForm = false)
               then [manual_entry] else []).
  exists (results ++ more). split_and!.
  - subst more. destruct autocompleteNames, showPersonForm; simpl;
      try done; by rewrite app_nil_r.
  - by rewrite <-Hlen, take_app_length.
  - by rewrite <-Hlen, take_app_length.
  - by rewrite <-Hlen, take_app_length.
  - by rewrite <-Hlen, drop_app_length.
Qed.

(** X21: the suggestion made of a result takes the first of its
    identifiers of scheme "orcid" as value and in the link, and lists the
    names of the affiliations with ", " between two of them. *)
Theorem suggestion_of_result creatibutor before orcid after :
  identifiers creatibutor = before ++ orcid :: after →
  scheme orcid = "orcid" →
  Forall (λ i, scheme i ≠ "orcid") before →
  ∃ suggestion,
    suggestion_of creatibutor = Normal suggestion ∧
    value suggestion = identifier orcid ∧
    content suggestion
      = PersonHeader (name creatibutor) (identifier orcid)
          ("https://orcid.org/" +:+ identifier orcid)
          (joined (affiliation_name <$> affiliations creatibutor)).
Proof.
  intros Hids Horcid Hbefore. unfold suggestion_of.
  rewrite (proj2 (find_orcid_Some creatibutor orcid)) by eauto.
  eexists. split_and!; [done..|]. simpl. f_equal.
  by rewrite forEach_affiliation_joined.
Qed.

End suggestions.

(** ** The further properties on two results of the search *)

Lemma serializeSuggestions_throws_witness :
  CreatibutorsModal.serializeSuggestions CreatibutorsModal.SEARCH false
    [CreatibutorsModal.with_orcid; CreatibutorsModal.without_orcid]
  = TypeError.
Proof.
  apply serializeSuggestions_throws.
  exists CreatibutorsModal.without_orcid. split; [set_solver|].
  intros (i & Hi & Hscheme). simpl in Hi.
  apply list_elem_of_singleton in Hi as ->. discriminate Hscheme.
Defined.

Lemma serializeSuggestions_results_witness :
  Forall CreatibutorsModal.has_orcid [CreatibutorsModal.with_orcid] ∧
  ∃ results,
    CreatibutorsModal.serializeSuggestions CreatibutorsModal.SEARCH_ONLY false
      [CreatibutorsModal.with_orcid] = Normal results ∧
    CreatibutorsModal.text <$> results = ["Doe, Jane"; "Manual entry"].
Proof.
  assert (Forall CreatibutorsModal.has_orcid [CreatibutorsModal.with_orcid])
    as Hall.
  { apply Forall_singleton. eexists.
    split; [simpl; right; left|reflexivity]. }
  split; [done|].
  destruct (serializeSuggestions_results CreatibutorsModal.SEARCH_ONLY false
              [CreatibutorsModal.with_orcid] Hall)
    as (results & Hresults & _ & Htext & _ & Hdrop).
  exists results. split; [done|].
  rewrite <-(take_drop 1 results), fmap_app. simpl in Htext, Hdrop.
  by rewrite Htext, Hdrop.
Defined.

Lemma suggestion_of_result_witness :
  ∃ suggestion,
    CreatibutorsModal.suggestion_of CreatibutorsModal.with_orcid
      = Normal suggestion ∧
    CreatibutorsModal.value suggestion = "0000-0001-8135-3489" ∧
    CreatibutorsModal.content suggestion
      = CreatibutorsModal.PersonHeader "Doe, Jane" "0000-0001-8135-3489"
          "https://orcid.org/0000-0001-8135-3489"
          "CERN, Northwestern University".
Proof.
  apply (suggestion_of_result CreatibutorsModal.with_orcid
           [ {| CreatibutorsModal.scheme := "isni";
                CreatibutorsModal.identifier := "0000000121032683" |} ]
           {| CreatibutorsModal.scheme := "orcid";
              CreatibutorsModal.identifier := "0000-0001-8135-3489" |} []).
  - reflexivity.
  - reflexivity.
  - apply Forall_singleton. discriminate.
Defined.
